(** * Live Incident Room backend: store, enrichment worker, room broadcaster

    A shallow embedding of [app/models.py], [app/store.py],
    [app/processor.py], [app/websocket_manager.py] and the handlers of
    [app/main.py], followed by the properties of the timeline store, of the
    two-stage enrichment worker and of the room broadcaster.

    Conventions.
    - A Python [str] is a [string] read as a sequence of characters, one
      [ascii] per character (code points below 256); [len] and slicing count
      characters.
    - A [Dict[int, _]] is a [gmap Z _], a [Set[WebSocket]] a [gset Conn] where
      a [Conn] names one websocket object.
    - Values that the program draws from the outside ([uuid4()],
      [datetime.now]) are arguments of the embedded functions.
    - The asyncio event loop is cooperative: code between two [await]s runs
      atomically.  Each atomic block is one function on the state; the
      interleavings are the sequences of blocks ([Action], [step], [run]). *)

From Stdlib Require Import ZArith String Ascii List Bool Lia.
From stdpp Require Import base gmap strings list fin_maps fin_sets.

Local Open Scope string_scope.
Local Open Scope list_scope.
Local Open Scope Z_scope.

(** ** Python string primitives used by the program *)

(** [s[:n]] *)
Fixpoint slice_to (n : nat) (s : string) : string :=
  match n, s with
  | O, _ => ""
  | S _, EmptyString => ""
  | S n', String c t => String c (slice_to n' t)
  end.

(** [len(s)] *)
Definition len (s : string) : nat := String.length s.

(** [c.lower()] on one character below code point 256: the upper-case
    letters there are A-Z and the Latin-1 block 0xC0-0xDE without 0xD7, and
    each one lower-cases to the character 32 positions later. *)
Definition lower_char (c : ascii) : ascii :=
  let n := nat_of_ascii c in
  if ((65 <=? n)%nat && (n <=? 90)%nat)
     || ((192 <=? n)%nat && (n <=? 222)%nat && negb (n =? 215)%nat)
  then ascii_of_nat (n + 32) else c.

(** [s.lower()] *)
Fixpoint lower (s : string) : string :=
  match s with
  | EmptyString => EmptyString
  | String c t => String (lower_char c) (lower t)
  end.

(** [s.startswith(p)] *)
Fixpoint startswith (s p : string) {struct p} : bool :=
  match p, s with
  | EmptyString, _ => true
  | String _ _, EmptyString => false
  | String c p', String d s' => Ascii.eqb c d && startswith s' p'
  end.

(** [needle in hay]: [needle] occurs in [hay] as a contiguous substring,
    that is, [hay] from some position on starts with [needle]. *)
Fixpoint contains (needle hay : string) : bool :=
  startswith hay needle
  || match hay with
     | EmptyString => false
     | String _ t => contains needle t
     end.

(** [sep.join(items)] *)
Fixpoint join (sep : string) (items : list string) : string :=
  match items with
  | [] => ""
  | [x] => x
  | x :: rest => x +:+ sep +:+ join sep rest
  end.

(** Characters for which [str.isspace()] holds, below code point 256. *)
Definition is_space (c : ascii) : bool :=
  let n := nat_of_ascii c in
  ((9 <=? n)%nat && (n <=? 13)%nat) || ((28 <=? n)%nat && (n <=? 32)%nat)
  || (n =? 133)%nat || (n =? 160)%nat.

(** [s.lstrip()] *)
Fixpoint lstrip (s : string) : string :=
  match s with
  | EmptyString => EmptyString
  | String c t => if is_space c then lstrip t else s
  end.

(** [s.rstrip()] *)
Fixpoint rstrip (s : string) : string :=
  match s with
  | EmptyString => EmptyString
  | String c t =>
      match rstrip t with
      | EmptyString => if is_space c then EmptyString else String c EmptyString
      | t' => String c t'
      end
  end.

(** [s.strip()] *)
Definition strip (s : string) : string := rstrip (lstrip s).

(** ** [app/models.py] *)

Inductive Severity := P1 | P2 | P3.

Inductive IncidentStatus := investigating | monitoring | resolved.

Inductive TimelineEventType :=
  human_update | status_change | ai_tag | ai_summary | system.

#[global] Instance Severity_eq_dec : EqDecision Severity.
Proof. solve_decision. Defined.
#[global] Instance IncidentStatus_eq_dec : EqDecision IncidentStatus.
Proof. solve_decision. Defined.
#[global] Instance TimelineEventType_eq_dec : EqDecision TimelineEventType.
Proof. solve_decision. Defined.

(** The member names; for these enums each member's value is its name. *)
Definition Severity_name (s : Severity) : string :=
  match s with P1 => "P1" | P2 => "P2" | P3 => "P3" end.

Definition IncidentStatus_name (s : IncidentStatus) : string :=
  match s with
  | investigating => "investigating"
  | monitoring => "monitoring"
  | resolved => "resolved"
  end.

(** [str(member)].  The enums are declared [class IncidentStatus(str, Enum)]:
    a mixed-in [str] does not replace [Enum.__str__], which renders a member
    as the class name, a dot and the member name.  (A member still compares
    equal to its value, [IncidentStatus.resolved == "resolved"]; the program
    compares [str(...)] instead.) *)
Definition str_Severity (s : Severity) : string :=
  "Severity." +:+ Severity_name s.

Definition str_IncidentStatus (s : IncidentStatus) : string :=
  "IncidentStatus." +:+ IncidentStatus_name s.

(** The values a payload dictionary holds in this program. *)
Inductive PyVal :=
| VStr (s : string)
| VList (l : list string)
| VStatus (s : IncidentStatus).

(** [Dict[str, Any]], in insertion order. *)
Definition Payload := list (string * PyVal).

(** [payload[key]] *)
Fixpoint payload_get (key : string) (p : Payload) : option PyVal :=
  match p with
  | [] => None
  | (k, v) :: rest => if String.eqb k key then Some v else payload_get key rest
  end.

(** The two [default_factory] fields of a [TimelineEvent]: a [uuid4()]
    rendered as a string and the clock reading. *)
Record Fresh := { uuid : string; now : Z }.

Module TimelineEvent.
Record t := {
  event_id : string;
  incident_id : Z;
  type : TimelineEventType;
  created_at : Z;
  payload : Payload
}.
End TimelineEvent.

(** [TimelineEvent(incident_id=.., type=.., payload=..)] *)
Definition new_event (f : Fresh) (incident_id : Z) (ty : TimelineEventType)
    (p : Payload) : TimelineEvent.t :=
  {| TimelineEvent.event_id := uuid f;
     TimelineEvent.incident_id := incident_id;
     TimelineEvent.type := ty;
     TimelineEvent.created_at := now f;
     TimelineEvent.payload := p |}.

Module Incident.
Record t := {
  id : Z;
  title : string;
  severity : Severity;
  status : IncidentStatus;
  created_at : Z;
  timeline : list TimelineEvent.t
}.

(** [inc.timeline.append(event)] *)
Definition append (inc : t) (e : TimelineEvent.t) : t :=
  {| id := id inc; title := title inc; severity := severity inc;
     status := status inc; created_at := created_at inc;
     timeline := timeline inc ++ [e] |}.

(** [inc.status = new_status] *)
Definition set_status (inc : t) (s : IncidentStatus) : t :=
  {| id := id inc; title := title inc; severity := severity inc;
     status := s; created_at := created_at inc;
     timeline := timeline inc |}.
End Incident.

Module IncidentSummary.
Record t := {
  id : Z;
  title : string;
  severity : Severity;
  status : IncidentStatus;
  created_at : Z
}.
End IncidentSummary.

(** [Incident(id=.., title=.., severity=..)]: the status defaults to
    [investigating] and the timeline to the empty list. *)
Definition new_incident (created : Z) (id : Z) (title : string)
    (sev : Severity) : Incident.t :=
  {| Incident.id := id; Incident.title := title; Incident.severity := sev;
     Incident.status := investigating; Incident.created_at := created;
     Incident.timeline := [] |}.

(** ** [app/store.py] *)

(** The exceptions the modelled code can raise. *)
Inductive Exn :=
| KeyError (msg : string)      (* raised by the store *)
| ConnectionClosed             (* [send_json] on a socket that went away *)
| TypeError                    (* [json.dumps] of a value that is not JSON *)
| ValidationError.             (* validation of a [WSClientMessage] *)

Inductive Result (A : Type) :=
| Ok (a : A)
| Raise (e : Exn).
Arguments Ok {A} a.
Arguments Raise {A} e.

Record IncidentStore := {
  _next_id : Z;
  _incidents : gmap Z Incident.t
}.

(** [IncidentStore()] *)
Definition new_store : IncidentStore :=
  {| _next_id := 1; _incidents := ∅ |}.

(** The f-string of the creation message formats the severity with
    [format()], which for these enums is [Enum.__str__] from Python 3.11 on
    (earlier versions print the bare value).  No property below depends on
    the text. *)
Definition created_message (title : string) (sev : Severity) : string :=
  "Incident created: " +:+ title +:+ " (" +:+ str_Severity sev +:+ ")".

Definition create_incident (st : IncidentStore) (created : Z) (f : Fresh)
    (title : string) (sev : Severity) : Incident.t * IncidentStore :=
  let incident_id := _next_id st in
  let inc := new_incident created incident_id title sev in
  let inc := Incident.append inc
               (new_event f incident_id system
                  [("message", VStr (created_message title sev))]) in
  (inc, {| _next_id := incident_id + 1;
           _incidents := <[incident_id := inc]> (_incidents st) |}).

Definition get_incident (st : IncidentStore) (incident_id : Z)
    : option Incident.t :=
  _incidents st !! incident_id.

(** The summary [list_incidents] builds of one incident. *)
Definition summary_of (i : Incident.t) : IncidentSummary.t :=
  {| IncidentSummary.id := Incident.id i;
     IncidentSummary.title := Incident.title i;
     IncidentSummary.severity := Incident.severity i;
     IncidentSummary.status := Incident.status i;
     IncidentSummary.created_at := Incident.created_at i |}.

(** [list_incidents]: one summary per value of the dictionary.  The list
    comes in the enumeration order of the finite map; the order in which
    the dictionary yields its values is not modelled. *)
Definition list_incidents (st : IncidentStore) : list IncidentSummary.t :=
  summary_of <$> (snd <$> map_to_list (_incidents st)).

Definition add_event (st : IncidentStore) (incident_id : Z)
    (event : TimelineEvent.t) : Result Incident.t * IncidentStore :=
  match _incidents st !! incident_id with
  | None => (Raise (KeyError "Incident not found"), st)
  | Some inc =>
      let inc := Incident.append inc event in
      (Ok inc, {| _next_id := _next_id st;
                  _incidents := <[incident_id := inc]> (_incidents st) |})
  end.

Definition update_status (st : IncidentStore) (f : Fresh) (incident_id : Z)
    (new_status : IncidentStatus) : Result Incident.t * IncidentStore :=
  match _incidents st !! incident_id with
  | None => (Raise (KeyError "Incident not found"), st)
  | Some inc =>
      let old_status := Incident.status inc in
      let inc := Incident.set_status inc new_status in
      let inc := Incident.append inc
                   (new_event f incident_id status_change
                      [("from", VStatus old_status);
                       ("to", VStatus new_status)]) in
      (Ok inc, {| _next_id := _next_id st;
                  _incidents := <[incident_id := inc]> (_incidents st) |})
  end.

(** ** [app/websocket_manager.py] *)

(** A websocket object, by identity. *)
Definition Conn := nat.

(** [model_dump(mode="json")] renders the timestamp and the enum as JSON
    values; a plain [model_dump()] keeps the [datetime] object. *)
Inductive DumpMode := ModeJson | ModePython.

(** The messages sent over a connection. *)
Inductive WireMsg :=
| MsgTimelineEvent (mode : DumpMode) (event : TimelineEvent.t)
| MsgInitialState (inc : Incident.t)
| MsgSystem (message : string)
| MsgError (message : string).

(** [json.dumps] inside [send_json] raises [TypeError] on a [datetime]. *)
Definition json_serialisable (m : WireMsg) : bool :=
  match m with
  | MsgTimelineEvent ModePython _ => false
  | _ => true
  end.

(** The connections as the program sees them: the sockets whose peer went
    away (every send on them raises) and the log of what was delivered. *)
Record Net := {
  closed : gset Conn;
  delivered : list (Conn * WireMsg)
}.

(** [await ws.send_json(message)] *)
Definition send_json (n : Net) (ws : Conn) (m : WireMsg)
    : Result unit * Net :=
  if negb (json_serialisable m) then (Raise TypeError, n)
  else if decide (ws ∈ closed n) then (Raise ConnectionClosed, n)
  else (Ok tt, {| closed := closed n;
                  delivered := delivered n ++ [(ws, m)] |}).

(** [self._rooms.get(incident_id, set())] *)
Definition room (rooms : gmap Z (gset Conn)) (incident_id : Z) : gset Conn :=
  default ∅ (rooms !! incident_id).

Definition connect (rooms : gmap Z (gset Conn)) (incident_id : Z)
    (websocket : Conn) : gmap Z (gset Conn) :=
  let rooms :=
    match rooms !! incident_id with
    | None => <[incident_id := ∅]> rooms
    | Some _ => rooms
    end in
  <[incident_id := room rooms incident_id ∪ {[websocket]}]> rooms.

Definition disconnect (rooms : gmap Z (gset Conn)) (incident_id : Z)
    (websocket : Conn) : gmap Z (gset Conn) :=
  match rooms !! incident_id with
  | None => rooms
  | Some s =>
      let s := s ∖ {[websocket]} in
      if decide (s = ∅) then delete incident_id rooms
      else <[incident_id := s]> rooms
  end.

(** First critical section of [broadcast]: the membership snapshot. *)
Definition snapshot (rooms : gmap Z (gset Conn)) (incident_id : Z)
    : list Conn :=
  elements (room rooms incident_id).

(** The delivery loop of [broadcast]; returns the [dead] list. *)
Fixpoint send_all (n : Net) (sockets : list Conn) (m : WireMsg)
    : Net * list Conn :=
  match sockets with
  | [] => (n, [])
  | ws :: rest =>
      match send_json n ws m with
      | (Ok _, n) => send_all n rest m
      | (Raise _, n) =>
          let '(n, dead) := send_all n rest m in (n, ws :: dead)
      end
  end.

(** [self._rooms[incident_id].discard(ws)] guarded by the membership test. *)
Definition discard (incident_id : Z) (rooms : gmap Z (gset Conn))
    (ws : Conn) : gmap Z (gset Conn) :=
  match rooms !! incident_id with
  | None => rooms
  | Some s => <[incident_id := s ∖ {[ws]}]> rooms
  end.

(** Second critical section of [broadcast]: the pruning pass. *)
Definition prune (rooms : gmap Z (gset Conn)) (incident_id : Z)
    (dead : list Conn) : gmap Z (gset Conn) :=
  let rooms := foldl (discard incident_id) rooms dead in
  match rooms !! incident_id with
  | Some s => if decide (s = ∅) then delete incident_id rooms else rooms
  | None => rooms
  end.

Definition broadcast (rooms : gmap Z (gset Conn)) (n : Net)
    (incident_id : Z) (message : WireMsg) : gmap Z (gset Conn) * Net :=
  let sockets := snapshot rooms incident_id in
  match sockets with
  | [] => (rooms, n)
  | _ =>
      let '(n, dead) := send_all n sockets message in
      match dead with
      | [] => (rooms, n)
      | _ => (prune rooms incident_id dead, n)
      end
  end.

(** ** [app/processor.py] *)

Module HumanUpdateJob.
Record t := {
  incident_id : Z;
  human_event_id : string;
  message : string
}.
End HumanUpdateJob.

Definition KEYWORDS : list string :=
  [ "error"; "errors"; "500"; "timeout"; "latency"; "slow"; "down"; "crash";
    "restarted"; "db"; "database"; "redis"; "cpu"; "memory"; "hpa";
    "throttle" ].

(** [extract_keywords]; no caller in the program. *)
Definition extract_keywords (text : string) : list string :=
  let lower := lower text in
  List.filter (fun k => contains k lower) KEYWORDS.

(** Stage A of [worker_loop]: the tags of a message. *)
Definition stage_a_tags (message : string) : list string :=
  let tags := [] in
  let msg_lower := lower message in
  let tags :=
    if contains "db" msg_lower || contains "database" msg_lower
    then tags ++ ["database"] else tags in
  let tags :=
    if contains "timeout" msg_lower then tags ++ ["timeout"] else tags in
  let tags :=
    if contains "payment" msg_lower || contains "checkout" msg_lower
    then tags ++ ["payments"] else tags in
  let tags :=
    if contains "latency" msg_lower then tags ++ ["latency"] else tags in
  match tags with
  | [] => ["general"]
  | _ => tags
  end.

Definition ai_tag_event (f : Fresh) (job : HumanUpdateJob.t)
    : TimelineEvent.t :=
  new_event f (HumanUpdateJob.incident_id job) ai_tag
    [("tags", VList (stage_a_tags (HumanUpdateJob.message job)));
     ("source_event_id", VStr (HumanUpdateJob.human_event_id job))].

(** Stage B of [worker_loop]: the summary text. *)
Definition stage_b_summary (message : string) : string :=
  "Summary: " +:+ slice_to 160 message.

Definition ai_summary_event (f : Fresh) (job : HumanUpdateJob.t)
    : TimelineEvent.t :=
  new_event f (HumanUpdateJob.incident_id job) ai_summary
    [("summary", VStr (stage_b_summary (HumanUpdateJob.message job)));
     ("source_event_id", VStr (HumanUpdateJob.human_event_id job))].

(** [fallback_summary]; no caller in the program. *)
Definition fallback_summary (message : string) (service : option string)
    (keywords : list string) : string :=
  let base := strip message in
  let base :=
    if (140 <? len base)%nat then rstrip (slice_to 140 base) +:+ "..."
    else base in
  match service, keywords with
  | Some (String c s), _ :: _ =>
      "Update about " +:+ String c s +:+ ". Signals: "
      +:+ join ", " (take 6 keywords) +:+ ". Details: " +:+ base
  | Some (String c s), [] => "Update about " +:+ String c s +:+ ": " +:+ base
  | _, _ :: _ =>
      "Incident update signals: " +:+ join ", " (take 6 keywords)
      +:+ ". Details: " +:+ base
  | _, [] => "Incident update: " +:+ base
  end.

(** The guard [str(inc.status) == "resolved"], written the same way in the
    worker and in both handlers of [main.py]. *)
Definition status_str_is_resolved (inc : Incident.t) : bool :=
  String.eqb (str_IncidentStatus (Incident.status inc)) "resolved".

(** ** The running system: [app/main.py] and the worker loop

    A handler or a worker is cut into blocks at the suspension points
    where another task can change what it looks at next: [queue.get()], the
    lock and [asyncio.sleep] for a worker, the next inbound message for a
    connection handler.  A broadcast changes neither the store nor the
    queue, so it runs inside the block that calls it; its own two critical
    sections are [snapshot] and [prune] above.  The moments at which a
    task waits inside a broadcast are thus not states of their own: in
    particular a worker that has appended its [ai_summary] and still
    waits, lock held, for the sends of the Stage-B broadcast.  What is
    stated below about every state the program reaches is stated so that
    it holds at those moments as well. *)

(** An [asyncio.Lock]: the flag and the queue of waiting tasks (workers, by
    their [worker_id]). *)
Record LockState := { locked : bool; waiters : list nat }.

(** Where a [worker_loop] coroutine is suspended. *)
Inductive WorkerState :=
| AtQueueGet
| AtLockAcquire (job : HumanUpdateJob.t)
| AtSleep (job : HumanUpdateJob.t).

(** The module-level objects of [main.py], the connections, the worker and
    handler coroutines and what the workers printed. *)
Record World := {
  store : IncidentStore;
  ws_manager : gmap Z (gset Conn);
  net : Net;
  processor_queue : list HumanUpdateJob.t;
  lock_manager : gmap Z LockState;
  workers : gmap nat WorkerState;
  sessions : gmap Conn Z;
  printed : list Exn
}.

Definition set_store (w : World) (st : IncidentStore) : World :=
  {| store := st; ws_manager := ws_manager w; net := net w;
     processor_queue := processor_queue w; lock_manager := lock_manager w;
     workers := workers w; sessions := sessions w; printed := printed w |}.

Definition set_rooms (w : World) (rooms : gmap Z (gset Conn)) : World :=
  {| store := store w; ws_manager := rooms; net := net w;
     processor_queue := processor_queue w; lock_manager := lock_manager w;
     workers := workers w; sessions := sessions w; printed := printed w |}.

Definition set_net (w : World) (n : Net) : World :=
  {| store := store w; ws_manager := ws_manager w; net := n;
     processor_queue := processor_queue w; lock_manager := lock_manager w;
     workers := workers w; sessions := sessions w; printed := printed w |}.

Definition set_queue (w : World) (q : list HumanUpdateJob.t) : World :=
  {| store := store w; ws_manager := ws_manager w; net := net w;
     processor_queue := q; lock_manager := lock_manager w;
     workers := workers w; sessions := sessions w; printed := printed w |}.

Definition set_locks (w : World) (l : gmap Z LockState) : World :=
  {| store := store w; ws_manager := ws_manager w; net := net w;
     processor_queue := processor_queue w; lock_manager := l;
     workers := workers w; sessions := sessions w; printed := printed w |}.

Definition set_worker (w : World) (k : nat) (s : WorkerState) : World :=
  {| store := store w; ws_manager := ws_manager w; net := net w;
     processor_queue := processor_queue w; lock_manager := lock_manager w;
     workers := <[k := s]> (workers w); sessions := sessions w;
     printed := printed w |}.

Definition set_sessions (w : World) (s : gmap Conn Z) : World :=
  {| store := store w; ws_manager := ws_manager w; net := net w;
     processor_queue := processor_queue w; lock_manager := lock_manager w;
     workers := workers w; sessions := s; printed := printed w |}.

(** [print(f"[worker ..] error:", repr(e))] *)
Definition print_error (w : World) (e : Exn) : World :=
  {| store := store w; ws_manager := ws_manager w; net := net w;
     processor_queue := processor_queue w; lock_manager := lock_manager w;
     workers := workers w; sessions := sessions w;
     printed := printed w ++ [e] |}.

(** [await ws_manager.broadcast(incident_id, message)] *)
Definition ws_broadcast (w : World) (incident_id : Z) (m : WireMsg) : World :=
  let '(rooms, n) := broadcast (ws_manager w) (net w) incident_id m in
  set_net (set_rooms w rooms) n.

(** [MAX_WORKERS = 2]; [startup_event] starts workers 1 and 2. *)
Definition MAX_WORKERS : nat := 2.

Definition initial_world : World :=
  {| store := new_store; ws_manager := ∅;
     net := {| closed := ∅; delivered := [] |};
     processor_queue := []; lock_manager := ∅;
     workers := {[ 1%nat := AtQueueGet; 2%nat := AtQueueGet ]};
     sessions := ∅; printed := [] |}.

(** *** The body of [worker_loop] *)

(** From the acquired lock to [asyncio.sleep]: the re-fetch, the guard and
    Stage A.  The result says whether the worker goes on to Stage B
    ([true]) or has hit a [continue] or the [except] clause ([false]). *)
Definition worker_stage_a (f : Fresh) (job : HumanUpdateJob.t) (w : World)
    : World * bool :=
  let incident_id := HumanUpdateJob.incident_id job in
  match get_incident (store w) incident_id with
  | None => (w, false)
  | Some inc =>
      if status_str_is_resolved inc then (w, false)
      else
        let event := ai_tag_event f job in
        match add_event (store w) incident_id event with
        | (Raise e, _) => (print_error w e, false)
        | (Ok _, st) =>
            (ws_broadcast (set_store w st) incident_id
               (MsgTimelineEvent ModeJson event), true)
        end
  end.

(** After [asyncio.sleep]: Stage B. *)
Definition worker_stage_b (f : Fresh) (job : HumanUpdateJob.t) (w : World)
    : World :=
  let incident_id := HumanUpdateJob.incident_id job in
  let event := ai_summary_event f job in
  match add_event (store w) incident_id event with
  | (Raise e, _) => print_error w e
  | (Ok _, st) =>
      ws_broadcast (set_store w st) incident_id
        (MsgTimelineEvent ModeJson event)
  end.

(** One job from the acquired lock to its release, with nothing else
    running during the sleep. *)
Definition worker_job (fa fb : Fresh) (job : HumanUpdateJob.t) (w : World)
    : World :=
  let '(w, go_on) := worker_stage_a fa job w in
  if go_on then worker_stage_b fb job w else w.

(** *** The per-incident lock *)

(** [lock_manager.get_lock(incident_id)], created unlocked on first use. *)
Definition get_lock (locks : gmap Z LockState) (incident_id : Z) : LockState :=
  default {| locked := false; waiters := [] |} (locks !! incident_id).

(** Leaving the [async with]: the flag is cleared, waiters keep their
    place. *)
Definition release (locks : gmap Z LockState) (incident_id : Z)
    : gmap Z LockState :=
  <[incident_id := {| locked := false;
                      waiters := waiters (get_lock locks incident_id) |}]>
    locks.

(** The worker [k] has just acquired the lock of the job's incident. *)
Definition run_locked (k : nat) (f : Fresh) (job : HumanUpdateJob.t)
    (w : World) : World :=
  let '(w, go_on) := worker_stage_a f job w in
  if go_on then set_worker w k (AtSleep job)
  else
    set_worker
      (set_locks w (release (lock_manager w) (HumanUpdateJob.incident_id job)))
      k AtQueueGet.

(** The event loop resumes worker [k]; [f] holds the fresh values of the
    event the worker creates in this block, if it creates one. *)
Definition worker_step (k : nat) (f : Fresh) (w : World) : World :=
  match workers w !! k with
  | None => w
  | Some AtQueueGet =>
      match processor_queue w with
      | [] => w
      | job :: rest =>
          let w := set_queue w rest in
          let incident_id := HumanUpdateJob.incident_id job in
          let l := get_lock (lock_manager w) incident_id in
          match locked l, waiters l with
          | false, [] =>
              run_locked k f job
                (set_locks w
                   (<[incident_id := {| locked := true; waiters := [] |}]>
                      (lock_manager w)))
          | _, _ =>
              set_worker
                (set_locks w
                   (<[incident_id := {| locked := locked l;
                                        waiters := waiters l ++ [k] |}]>
                      (lock_manager w)))
                k (AtLockAcquire job)
          end
      end
  | Some (AtLockAcquire job) =>
      let incident_id := HumanUpdateJob.incident_id job in
      let l := get_lock (lock_manager w) incident_id in
      match locked l, waiters l with
      | false, k' :: rest =>
          if (k' =? k)%nat then
            run_locked k f job
              (set_locks w
                 (<[incident_id := {| locked := true; waiters := rest |}]>
                    (lock_manager w)))
          else w
      | _, _ => w
      end
  | Some (AtSleep job) =>
      let w := worker_stage_b f job w in
      set_worker
        (set_locks w (release (lock_manager w) (HumanUpdateJob.incident_id job)))
        k AtQueueGet
  end.

(** *** The request handlers of [main.py] *)

Inductive Response :=
| Resp200 (inc : Incident.t)
| Resp404 (detail : string)
| Resp422
| Resp500.

(** [POST /incidents]; the request model bounds the title's length. *)
Definition http_create_incident (created : Z) (f : Fresh) (title : string)
    (sev : Severity) (w : World) : Response * World :=
  if (3 <=? len title)%nat && (len title <=? 120)%nat then
    let '(inc, st) := create_incident (store w) created f title sev in
    (Resp200 inc, set_store w st)
  else (Resp422, w).

(** [GET /incidents] *)
Definition http_list_incidents (w : World) : list IncidentSummary.t :=
  list_incidents (store w).

(** [GET /incidents/{incident_id}] *)
Definition http_get_incident (incident_id : Z) (w : World) : Response :=
  match get_incident (store w) incident_id with
  | None => Resp404 "Incident not found"
  | Some inc => Resp200 inc
  end.

(** [PATCH /incidents/{incident_id}/status].  [inc] is the stored object, so
    the response shows the system event when one is appended. *)
Definition update_incident_status (f_change f_system : Fresh)
    (incident_id : Z) (new_status : IncidentStatus) (w : World)
    : Response * World :=
  match update_status (store w) f_change incident_id new_status with
  | (Raise _, _) => (Resp404 "Incident not found", w)
  | (Ok inc, st) =>
      let w := set_store w st in
      if status_str_is_resolved inc then
        let system_event :=
          new_event f_system incident_id system
            [("message", VStr "Incident resolved. Processing stopped.")] in
        match add_event (store w) incident_id system_event with
        | (Raise _, _) => (Resp500, w)
        | (Ok inc, st) =>
            (Resp200 inc,
             ws_broadcast (set_store w st) incident_id
               (MsgTimelineEvent ModePython system_event))
        end
      else (Resp200 inc, w)
  end.

(** The [except] clauses of [incident_room_ws]: the connection leaves its
    room and the handler ends. *)
Definition end_session (c : Conn) (incident_id : Z) (w : World) : World :=
  let w := set_rooms w (disconnect (ws_manager w) incident_id c) in
  let w := set_sessions w (delete c (sessions w)) in
  set_net w {| closed := closed (net w) ∪ {[c]};
               delivered := delivered (net w) |}.

(** [send_json] to the handler's own socket; a failure ends the handler. *)
Definition send_or_end (c : Conn) (incident_id : Z) (m : WireMsg)
    (w : World) : World :=
  match send_json (net w) c m with
  | (Ok _, n) => set_net w n
  | (Raise _, _) => end_session c incident_id w
  end.

(** A client opens [/ws/incidents/{incident_id}]: up to the first
    [receive_json]. *)
Definition incident_room_ws_open (c : Conn) (incident_id : Z) (w : World)
    : World :=
  match sessions w !! c with
  | Some _ => w
  | None =>
      match get_incident (store w) incident_id with
      | None => w
      | Some inc =>
          let w := set_rooms w (connect (ws_manager w) incident_id c) in
          let w := set_sessions w (<[c := incident_id]> (sessions w)) in
          send_or_end c incident_id (MsgInitialState inc) w
      end
  end.

(** One round of the handler's loop: the client of connection [c] sent
    [{"message": text}]. *)
Definition incident_room_ws_receive (c : Conn) (f : Fresh) (text : string)
    (w : World) : World :=
  match sessions w !! c with
  | None => w
  | Some incident_id =>
      if (1 <=? len text)%nat && (len text <=? 2000)%nat then
        match get_incident (store w) incident_id with
        | None =>
            send_or_end c incident_id (MsgError "Incident not found") w
        | Some inc_latest =>
            if status_str_is_resolved inc_latest then
              send_or_end c incident_id
                (MsgSystem "Incident is resolved. No new updates allowed.") w
            else
              let event :=
                new_event f incident_id human_update
                  [("message", VStr text)] in
              match add_event (store w) incident_id event with
              | (Raise _, _) => end_session c incident_id w
              | (Ok _, st) =>
                  let w :=
                    ws_broadcast (set_store w st) incident_id
                      (MsgTimelineEvent ModeJson event) in
                  set_queue w
                    (processor_queue w
                     ++ [{| HumanUpdateJob.incident_id := incident_id;
                            HumanUpdateJob.human_event_id :=
                              TimelineEvent.event_id event;
                            HumanUpdateJob.message := text |}])
              end
        end
      else end_session c incident_id w
  end.

(** [receive_json] raises [WebSocketDisconnect]. *)
Definition incident_room_ws_closed (c : Conn) (w : World) : World :=
  match sessions w !! c with
  | None => w
  | Some incident_id => end_session c incident_id w
  end.

(** *** Schedules *)

(** What the event loop can run next: one atomic block of a handler or of
    a worker, or a peer going away unnoticed. *)
Inductive Action :=
| CreateIncident (created : Z) (f : Fresh) (title : string) (sev : Severity)
| UpdateStatus (f_change f_system : Fresh) (incident_id : Z)
    (new_status : IncidentStatus)
| WsOpen (c : Conn) (incident_id : Z)
| WsReceive (c : Conn) (f : Fresh) (text : string)
| WsClosed (c : Conn)
| PeerGone (c : Conn)
| Worker (k : nat) (f : Fresh).

Definition step (a : Action) (w : World) : World :=
  match a with
  | CreateIncident created f title sev =>
      snd (http_create_incident created f title sev w)
  | UpdateStatus f_change f_system incident_id new_status =>
      snd (update_incident_status f_change f_system incident_id new_status w)
  | WsOpen c incident_id => incident_room_ws_open c incident_id w
  | WsReceive c f text => incident_room_ws_receive c f text w
  | WsClosed c => incident_room_ws_closed c w
  | PeerGone c =>
      set_net w {| closed := closed (net w) ∪ {[c]};
                   delivered := delivered (net w) |}
  | Worker k f => worker_step k f w
  end.

(** A schedule, run from left to right. *)
Definition run (schedule : list Action) (w : World) : World :=
  foldl (fun w a => step a w) w schedule.

(** The timeline of an incident, empty when the incident is unknown. *)
Definition timeline_of (st : IncidentStore) (incident_id : Z)
    : list TimelineEvent.t :=
  match get_incident st incident_id with
  | Some inc => Incident.timeline inc
  | None => []
  end.

(** The status of an incident. *)
Definition status_of (st : IncidentStore) (incident_id : Z)
    : option IncidentStatus :=
  Incident.status <$> get_incident st incident_id.

(** ** Vocabulary of the properties *)

(** The failure of the store's operations on an unknown identifier. *)
Definition NotFound {A} : Result A := Raise (KeyError "Incident not found").

(** The event [update_status] records. *)
Definition status_change_event (f : Fresh) (id : Z)
    (old_status new_status : IncidentStatus) : TimelineEvent.t :=
  new_event f id status_change
    [("from", VStatus old_status); ("to", VStatus new_status)].

(** [update_status] installs the requested status whatever the current one
    is. *)
Definition resolved_then_reopened : IncidentStore * IncidentStore :=
  let f := {| uuid := "u"; now := 0 |} in
  let st := snd (create_incident new_store 0 f "Checkout down" P1) in
  let st := snd (update_status st f 1 resolved) in
  (st, snd (update_status st f 1 investigating)).

(** The vocabulary in the order the worker checks it: each tag with the
    substrings that produce it. *)
Definition vocabulary : list (string * list string) :=
  [ ("database", ["db"; "database"]);
    ("timeout", ["timeout"]);
    ("payments", ["payment"; "checkout"]);
    ("latency", ["latency"]) ].

(** The tags whose substrings occur in the lower-cased message, in
    vocabulary order. *)
Definition matched_tags (message : string) : list string :=
  fst <$> List.filter
            (fun entry => existsb (fun k => contains k (lower message))
                            (snd entry))
            vocabulary.

(** [c * n] *)
Fixpoint str_repeat (c : ascii) (n : nat) : string :=
  match n with
  | O => ""
  | S n => String c (str_repeat c n)
  end.

(** No key of the room map holds an empty set. *)
Definition no_empty_room (rooms : gmap Z (gset Conn)) : Prop :=
  ∀ i s, rooms !! i = Some s → s ≠ ∅.

(** [send_json n ws m] succeeds. *)
Definition accepts (n : Net) (m : WireMsg) (ws : Conn) : bool :=
  json_serialisable m && bool_decide (ws ∉ closed n).

(** What one broadcast to room [i] delivers: the message, once to each
    member of the snapshot that accepts it. *)
Definition sent_by_broadcast (rooms : gmap Z (gset Conn)) (n : Net) (i : Z)
    (m : WireMsg) : list (Conn * WireMsg) :=
  (fun ws => (ws, m)) <$> List.filter (accepts n m) (snapshot rooms i).

(** The ways the room map changes: the two methods and the pruning pass of
    a broadcast, whatever its [dead] list. *)
Inductive RoomOp :=
| OpConnect (i : Z) (ws : Conn)
| OpDisconnect (i : Z) (ws : Conn)
| OpPrune (i : Z) (dead : list Conn).

Definition room_step (op : RoomOp) (rooms : gmap Z (gset Conn))
    : gmap Z (gset Conn) :=
  match op with
  | OpConnect i ws => connect rooms i ws
  | OpDisconnect i ws => disconnect rooms i ws
  | OpPrune i dead => prune rooms i dead
  end.

Definition run_rooms (ops : list RoomOp) (rooms : gmap Z (gset Conn))
    : gmap Z (gset Conn) :=
  foldl (fun rooms op => room_step op rooms) rooms ops.

(** Fresh values for the examples. *)
Definition fresh (k : Z) : Fresh :=
  {| uuid := String (ascii_of_nat (Z.to_nat (48 + k))) ""; now := k |}.

(** An incident is created, a viewer connects and posts an update. *)
Definition update_posted : list Action :=
  [ CreateIncident 0 (fresh 0) "Checkout down" P1;
    WsOpen 7%nat 1;
    WsReceive 7%nat (fresh 1) "db down" ].

(** The update is posted, the incident is resolved, and only then a worker
    takes the job from the queue and runs both of its blocks. *)
Definition resolved_before_dequeue : list Action :=
  update_posted
  ++ [ UpdateStatus (fresh 2) (fresh 3) 1 resolved;
       Worker 1%nat (fresh 4);
       Worker 1%nat (fresh 5) ].

(** The worker has run Stage A and sleeps; the incident is resolved; the
    worker wakes up and runs Stage B. *)
Definition resolved_during_sleep : list Action :=
  update_posted
  ++ [ Worker 1%nat (fresh 2);
       UpdateStatus (fresh 3) (fresh 4) 1 resolved;
       Worker 1%nat (fresh 5) ].

(** The incident is resolved and the viewer posts another update. *)
Definition update_after_resolved : list Action :=
  update_posted
  ++ [ Worker 1%nat (fresh 2);
       Worker 1%nat (fresh 3);
       UpdateStatus (fresh 4) (fresh 5) 1 resolved;
       WsReceive 7%nat (fresh 6) "still down";
       Worker 1%nat (fresh 7);
       Worker 1%nat (fresh 8) ].

(** The store after any number of [create_incident], [add_event] (of an
    event made for that incident) and [update_status] calls. *)
Inductive store_evolves (st : IncidentStore) : IncidentStore → Prop :=
| evolves_refl : store_evolves st st
| evolves_create st' created f title sev :
    store_evolves st st' →
    store_evolves st (snd (create_incident st' created f title sev))
| evolves_add st' id ev :
    TimelineEvent.incident_id ev = id →
    store_evolves st st' →
    store_evolves st (snd (add_event st' id ev))
| evolves_status st' f id s :
    store_evolves st st' →
    store_evolves st (snd (update_status st' f id s)).

(** Every incident sits under its own identifier, identifiers are the
    ones handed out so far, and each timeline starts with a [system] event
    and holds only events made for its incident. *)
Definition store_wf (st : IncidentStore) : Prop :=
  1 ≤ _next_id st
  ∧ ∀ k inc, _incidents st !! k = Some inc →
      Incident.id inc = k
      ∧ 1 ≤ k < _next_id st
      ∧ (∃ e rest, Incident.timeline inc = e :: rest
                   ∧ TimelineEvent.type e = system)
      ∧ (∀ e, e ∈ Incident.timeline inc → TimelineEvent.incident_id e = k).

(** [payload["source_event_id"]] of an event, when it is a string. *)
Definition source_of (e : TimelineEvent.t) : option string :=
  match payload_get "source_event_id" (TimelineEvent.payload e) with
  | Some (VStr src) => Some src
  | _ => None
  end.

(** Reading a timeline from its start and looking at the enrichment events
    only.  [Some None]: every [ai_tag] so far was followed by the
    [ai_summary] of the same source event before any other enrichment
    event.  [Some (Some src)]: so far as before, and the last enrichment
    event is an [ai_tag] for [src] that still waits for its summary.
    [None]: the order is broken (two tags in a row, a summary without its
    tag, or a summary for another source). *)
Definition pairing_step (state : option (option string))
    (e : TimelineEvent.t) : option (option string) :=
  match state with
  | None => None
  | Some open =>
      match TimelineEvent.type e, open with
      | ai_tag, None =>
          match source_of e with
          | Some src => Some (Some src)
          | None => None
          end
      | ai_tag, Some _ => None
      | ai_summary, Some src =>
          match source_of e with
          | Some src' => if String.eqb src' src then Some None else None
          | None => None
          end
      | ai_summary, None => None
      | _, _ => state
      end
  end.

Definition pairing (tl : list TimelineEvent.t) : option (option string) :=
  foldl pairing_step (Some None) tl.

(** The flag of an incident's lock. *)
Definition lock_held (w : World) (incident_id : Z) : bool :=
  locked (get_lock (lock_manager w) incident_id).

Definition pairing_of (w : World) (incident_id : Z)
    : option (option string) :=
  pairing (timeline_of (store w) incident_id).

(** Locks, sleeping workers and timelines agree: a worker asleep between
    its two stages holds its incident's lock and the timeline waits for
    its summary; no two workers sleep on one incident; a held lock has a
    sleeping worker; and where no lock is held no pair is open. *)
Definition lock_inv (w : World) : Prop :=
  (∀ k job, workers w !! k = Some (AtSleep job) →
     lock_held w (HumanUpdateJob.incident_id job) = true
     ∧ pairing_of w (HumanUpdateJob.incident_id job)
       = Some (Some (HumanUpdateJob.human_event_id job)))
  ∧ (∀ k k' job job',
       workers w !! k = Some (AtSleep job) →
       workers w !! k' = Some (AtSleep job') →
       HumanUpdateJob.incident_id job = HumanUpdateJob.incident_id job' →
       k = k')
  ∧ (∀ id, lock_held w id = true →
       ∃ k job, workers w !! k = Some (AtSleep job)
                ∧ HumanUpdateJob.incident_id job = id)
  ∧ (∀ id, lock_held w id = false → pairing_of w id = Some None).

(** The enrichment events of a timeline, in timeline order. *)
Definition enrichment (tl : list TimelineEvent.t) : list TimelineEvent.t :=
  List.filter
    (fun e => match TimelineEvent.type e with
              | ai_tag | ai_summary => true
              | _ => false
              end) tl.

(** A list of enrichment events made of whole pairs, an [ai_tag] directly
    followed by the [ai_summary] with the same source event, with at most
    one [ai_tag] left over at the end. *)
Inductive well_paired : list TimelineEvent.t → Prop :=
| paired_nil : well_paired []
| paired_open t :
    TimelineEvent.type t = ai_tag → well_paired [t]
| paired_cons t s rest :
    TimelineEvent.type t = ai_tag →
    TimelineEvent.type s = ai_summary →
    is_Some (source_of t) →
    source_of s = source_of t →
    well_paired rest →
    well_paired (t :: s :: rest).

(** The job stands for a [human_update] event of its incident's timeline
    with the same identifier and message. *)
Definition job_grounded (st : IncidentStore) (job : HumanUpdateJob.t) : Prop :=
  ∃ e, e ∈ timeline_of st (HumanUpdateJob.incident_id job)
       ∧ TimelineEvent.type e = human_update
       ∧ TimelineEvent.event_id e = HumanUpdateJob.human_event_id job
       ∧ TimelineEvent.payload e
         = [("message", VStr (HumanUpdateJob.message job))].

(** The jobs in flight: in the queue, or in the hands of a worker that
    waits for the lock or sleeps between the stages. *)
Definition job_in_flight (w : World) (job : HumanUpdateJob.t) : Prop :=
  job ∈ processor_queue w
  ∨ ∃ k, workers w !! k = Some (AtLockAcquire job)
         ∨ workers w !! k = Some (AtSleep job).

(** Every member of a room has a running handler for that incident, and
    every running handler is for an incident in the store. *)
Definition rooms_inv (w : World) : Prop :=
  (∀ i c, c ∈ room (ws_manager w) i → sessions w !! c = Some i)
  ∧ (∀ c i, sessions w !! c = Some i → is_Some (get_incident (store w) i)).

(** From [w] to [w'] the log of deliveries only grows, and every timeline
    event among the new deliveries is in the store of [w'], in the
    timeline of the incident it names. *)
Definition sends_only_stored (w w' : World) : Prop :=
  ∃ extra,
    delivered (net w') = delivered (net w) ++ extra
    ∧ ∀ c mode e, (c, MsgTimelineEvent mode e) ∈ extra →
        e ∈ timeline_of (store w') (TimelineEvent.incident_id e).

(** The connection is in the set the room map holds under the incident. *)
Definition registered (rooms : gmap Z (gset Conn)) (incident_id : Z)
    (ws : Conn) : Prop :=
  ∃ s, rooms !! incident_id = Some s ∧ ws ∈ s.

(** Two rooms: connections 4 and 5 watch incident 1, connection 6 watches
    incident 2; the peer of connection 5 has gone away. *)
Definition two_rooms : gmap Z (gset Conn) :=
  {[ 1 := {[ 4%nat; 5%nat ]}; 2 := {[ 6%nat ]} ]}.

Definition peer_5_gone : Net := {| closed := {[ 5%nat ]}; delivered := [] |}.

(** * Properties *)

(** ** The timeline store *)

Section Store.
Implicit Types (st : IncidentStore) (inc : Incident.t) (ev : TimelineEvent.t).

Lemma get_incident_None st id :
  get_incident st id = None ↔ id ∉ dom (_incidents st).
Proof. unfold get_incident. by rewrite not_elem_of_dom. Qed.

Lemma add_event_unknown st id ev :
  _incidents st !! id = None → add_event st id ev = (NotFound, st).
Proof. intros H. unfold add_event. by rewrite H. Qed.

Lemma add_event_known st id inc ev :
  _incidents st !! id = Some inc →
  add_event st id ev
  = (Ok (Incident.append inc ev),
     {| _next_id := _next_id st;
        _incidents := <[id := Incident.append inc ev]> (_incidents st) |}).
Proof. intros H. unfold add_event. by rewrite H. Qed.

Lemma update_status_unknown st f id s :
  _incidents st !! id = None → update_status st f id s = (NotFound, st).
Proof. intros H. unfold update_status. by rewrite H. Qed.

Lemma update_status_known st f id inc s :
  _incidents st !! id = Some inc →
  let inc' :=
    Incident.append (Incident.set_status inc s)
      (status_change_event f id (Incident.status inc) s) in
  update_status st f id s
  = (Ok inc', {| _next_id := _next_id st;
                 _incidents := <[id := inc']> (_incidents st) |}).
Proof. intros H. unfold update_status. by rewrite H. Qed.

(** C9. [get_incident], [add_event] and [update_status] fail (the first with
    [None], the other two with the [KeyError]) exactly when the identifier
    is not a key of the store, and then leave the store as it was; on a
    known identifier [add_event] and [update_status] return the incident as
    it now stands in the store, timeline included. *)
Theorem store_not_found_exactly_when_unknown st id :
  (get_incident st id = None ↔ id ∉ dom (_incidents st))
  ∧ (∀ ev, fst (add_event st id ev) = NotFound ↔ id ∉ dom (_incidents st))
  ∧ (∀ f s,
       fst (update_status st f id s) = NotFound ↔ id ∉ dom (_incidents st))
  ∧ (id ∉ dom (_incidents st) →
     (∀ ev, snd (add_event st id ev) = st)
     ∧ (∀ f s, snd (update_status st f id s) = st))
  ∧ (∀ inc, get_incident st id = Some inc →
     (∀ ev, ∃ inc' st',
        add_event st id ev = (Ok inc', st')
        ∧ get_incident st' id = Some inc'
        ∧ Incident.timeline inc' = Incident.timeline inc ++ [ev])
     ∧ (∀ f s, ∃ inc' st',
        update_status st f id s = (Ok inc', st')
        ∧ get_incident st' id = Some inc'
        ∧ Incident.timeline inc'
          = Incident.timeline inc
            ++ [status_change_event f id (Incident.status inc) s])).
Proof.
  unfold get_incident.
  destruct (_incidents st !! id) as [inc|] eqn:Hid.
  - assert (¬ (id ∉ dom (_incidents st))) as Hin
      by (rewrite not_elem_of_dom; congruence).
    split; [done|]. split; [|split; [|split]].
    + intros ev. rewrite (add_event_known _ _ _ _ Hid). done.
    + intros f s. rewrite (update_status_known _ _ _ _ _ Hid). done.
    + done.
    + intros ? [= <-]. split.
      * intros ev. rewrite (add_event_known _ _ _ _ Hid).
        eexists _, _. split; [reflexivity|].
        simpl. by rewrite lookup_insert_eq.
      * intros f s. rewrite (update_status_known _ _ _ _ _ Hid).
        eexists _, _. split; [reflexivity|].
        simpl. by rewrite lookup_insert_eq.
  - assert (id ∉ dom (_incidents st)) as Hin by by rewrite not_elem_of_dom.
    split; [done|]. split; [|split; [|split]].
    + intros ev. by rewrite add_event_unknown.
    + intros f s. by rewrite update_status_unknown.
    + intros _. split; intros.
      * by rewrite add_event_unknown.
      * by rewrite update_status_unknown.
    + done.
Qed.

(** C10. The incident [create_incident] returns is [investigating], its
    timeline is one event of type [system], and it is what the store now
    holds under the identifier that was next. *)
Theorem create_incident_fresh st created f title sev :
  let inc := fst (create_incident st created f title sev) in
  let st' := snd (create_incident st created f title sev) in
  Incident.status inc = investigating
  ∧ TimelineEvent.type <$> Incident.timeline inc = [system]
  ∧ Incident.id inc = _next_id st
  ∧ get_incident st' (_next_id st) = Some inc.
Proof.
  simpl. repeat split. unfold get_incident. simpl. by rewrite lookup_insert_eq.
Qed.

(** C4, as stated, fails: an incident that is [resolved] becomes
    [investigating] again through [update_status]. *)
Lemma resolved_is_not_terminal :
  status_of (fst resolved_then_reopened) 1 = Some resolved
  ∧ status_of (snd resolved_then_reopened) 1 = Some investigating.
Proof. split; reflexivity. Qed.

(** C4, amended.  [update_status] on a known incident sets the status to
    the requested one, whatever it was before, [resolved] included, and
    records the change from the old to the new status; so the status stays
    [resolved] exactly when [resolved] is what is requested. *)
Theorem update_status_sets_requested st f id inc s :
  get_incident st id = Some inc →
  let st' := snd (update_status st f id s) in
  status_of st' id = Some s
  ∧ timeline_of st' id
    = Incident.timeline inc
      ++ [status_change_event f id (Incident.status inc) s]
  ∧ (Incident.status inc = resolved → (status_of st' id = Some resolved ↔ s = resolved)).
Proof.
  intros Hid. unfold get_incident in Hid.
  rewrite (update_status_known _ _ _ _ _ Hid). simpl.
  unfold status_of, timeline_of, get_incident. simpl.
  rewrite lookup_insert_eq. simpl. repeat split; intros; congruence.
Qed.

Lemma update_status_sets_requested_witness :
  status_of (snd resolved_then_reopened) 1 = Some investigating.
Proof.
  pose proof (update_status_sets_requested
                (fst resolved_then_reopened) {| uuid := "u"; now := 0 |} 1
                _ investigating eq_refl) as H.
  exact (proj1 H).
Defined.

End Store.

(** ** Stage A: tags *)

Section Tags.
Implicit Types (message needle hay : string).

Lemma append_empty_l (s : string) : "" +:+ s = s.
Proof. reflexivity. Qed.

Lemma append_String (c : ascii) (s t : string) :
  String c s +:+ t = String c (s +:+ t).
Proof. reflexivity. Qed.

Lemma startswith_spec hay needle :
  startswith hay needle = true ↔ ∃ rest, hay = needle +:+ rest.
Proof.
  revert hay. induction needle as [|c needle IH]; intros hay; simpl.
  - split; [intros _; exists hay; reflexivity | done].
  - destruct hay as [|d hay].
    + split; [done | intros [rest H]; by rewrite append_String in H].
    + rewrite andb_true_iff, Ascii.eqb_eq, IH. split.
      * intros [-> [rest ->]]. by exists rest.
      * intros [rest H]. rewrite append_String in H.
        injection H as -> ->. split; [done | by exists rest].
Qed.

(** [contains] is the substring test of Python's [in]. *)
Lemma contains_spec needle hay :
  contains needle hay = true
  ↔ ∃ before after, hay = before +:+ needle +:+ after.
Proof.
  induction hay as [|d hay IH].
  - simpl. rewrite orb_false_r, startswith_spec. split.
    + intros [rest ->]. by exists "", rest.
    + intros [before [after H]]. destruct before as [|c before].
      * by exists after.
      * by rewrite append_String in H.
  - simpl. rewrite orb_true_iff, startswith_spec, IH. split.
    + intros [[rest ->] | (before & after & ->)].
      * by exists "", rest.
      * by exists (String d before), after.
    + intros ([|c before] & after & H).
      * left. by exists after.
      * right. rewrite append_String in H. injection H as -> ->.
        by exists before, after.
Qed.

Lemma lower_char_idemp c : lower_char (lower_char c) = lower_char c.
Proof. by destruct c as [[] [] [] [] [] [] [] []]. Qed.

Lemma lower_idemp message : lower (lower message) = lower message.
Proof.
  induction message as [|c t IH]; simpl; [done|].
  by rewrite lower_char_idemp, IH.
Qed.

Lemma stage_a_tags_vocabulary message :
  stage_a_tags message
  = match matched_tags message with
    | [] => ["general"]
    | tags => tags
    end.
Proof.
  unfold stage_a_tags, matched_tags, vocabulary. simpl.
  rewrite !orb_false_r.
  destruct (contains "db" _), (contains "database" _),
    (contains "timeout" _), (contains "payment" _),
    (contains "checkout" _), (contains "latency" _); reflexivity.
Qed.

(** C6. The tags are the vocabulary's matches on the lower-cased message,
    in checking order: the checkout message gets [database], [timeout],
    [payments], [latency]; two messages that differ only in letter case get
    the same tags; and a message in which none of the six substrings occurs
    gets exactly [general]. *)
Theorem stage_a_tags_spec :
  stage_a_tags "DB timeout on checkout-service, latency spiking"
  = ["database"; "timeout"; "payments"; "latency"]
  ∧ (∀ message,
       stage_a_tags message
       = match matched_tags message with [] => ["general"] | tags => tags end)
  ∧ (∀ m1 m2, lower m1 = lower m2 → stage_a_tags m1 = stage_a_tags m2)
  ∧ (∀ message,
       (∀ k, k ∈ ["db"; "database"; "timeout"; "payment"; "checkout";
                   "latency"] →
             ¬ ∃ before after, lower message = before +:+ k +:+ after) →
       stage_a_tags message = ["general"]).
Proof.
  split; [reflexivity|]. split; [apply stage_a_tags_vocabulary|]. split.
  - intros m1 m2 H. unfold stage_a_tags. by rewrite H.
  - intros message Hnone.
    assert (∀ k, k ∈ ["db"; "database"; "timeout"; "payment"; "checkout";
                       "latency"] → contains k (lower message) = false) as H.
    { intros k Hk. apply not_true_is_false. rewrite contains_spec.
      by apply Hnone. }
    unfold stage_a_tags.
    rewrite !H; [reflexivity | set_solver..].
Qed.

Lemma stage_a_tags_spec_witness : stage_a_tags "all good here" = ["general"].
Proof.
  apply (proj2 (proj2 (proj2 stage_a_tags_spec))).
  intros k Hk. rewrite <- contains_spec.
  repeat (apply elem_of_cons in Hk as [->|Hk]; [by vm_compute|]).
  by apply elem_of_nil in Hk.
Defined.

End Tags.

(** ** Stage B: summary *)

Section Summary.
Implicit Types (message : string).

Lemma slice_to_short n message :
  (len message ≤ n)%nat → slice_to n message = message.
Proof.
  revert n. induction message as [|c t IH]; intros [|n] H; simpl in *;
    try done; try lia.
  f_equal. apply IH. lia.
Qed.

Lemma slice_to_prefix n message :
  ∃ rest, message = slice_to n message +:+ rest.
Proof.
  revert n. induction message as [|c t IH]; intros [|n]; simpl.
  - by exists "".
  - by exists "".
  - by eexists.
  - destruct (IH n) as [rest Hrest]. exists rest.
    rewrite append_String. by f_equal.
Qed.

Lemma slice_to_len n message :
  len (slice_to n message) = (n `min` len message)%nat.
Proof.
  revert n. induction message as [|c t IH]; intros [|n]; simpl; try done.
  f_equal. apply IH.
Qed.

(** C3, as stated, fails: the Stage-B summary of a message of 500
    characters is the label and the first 160 characters, and nothing comes
    after them. *)
Lemma stage_b_summary_no_marker :
  len (str_repeat "a" 500) = 500%nat
  ∧ stage_b_summary (str_repeat "a" 500) = "Summary: " +:+ str_repeat "a" 160
  ∧ stage_b_summary (str_repeat "b" 500) = "Summary: " +:+ str_repeat "b" 160.
Proof. by vm_compute. Qed.

(** C3, amended.  The Stage-B summary is the label ["Summary: "] followed
    by the first 160 characters of the message and nothing else: a message
    of at most 160 characters (one of 50, say) appears whole, and of a
    longer one (one of 500, say) exactly its 160-character prefix appears,
    with no continuation marker. *)
Theorem stage_b_summary_spec message :
  stage_b_summary message = "Summary: " +:+ slice_to 160 message
  ∧ (∃ rest, message = slice_to 160 message +:+ rest)
  ∧ len (slice_to 160 message) = (160 `min` len message)%nat
  ∧ ((len message ≤ 160)%nat →
     stage_b_summary message = "Summary: " +:+ message).
Proof.
  split; [done|]. split; [apply slice_to_prefix|].
  split; [apply slice_to_len|].
  intros H. unfold stage_b_summary. by rewrite slice_to_short.
Qed.

Lemma stage_b_summary_spec_witness :
  stage_b_summary (str_repeat "x" 50) = "Summary: " +:+ str_repeat "x" 50.
Proof.
  apply (proj2 (proj2 (proj2 (stage_b_summary_spec (str_repeat "x" 50))))).
  vm_compute. lia.
Defined.

(** The helper [fallback_summary], which the worker does not call, is where
    a marker exists: past 140 characters it cuts and appends three dots. *)
Example fallback_summary_marker :
  fallback_summary (str_repeat "a" 500) None []
  = "Incident update: " +:+ str_repeat "a" 140 +:+ "...".
Proof. by vm_compute. Qed.

End Summary.

(** ** The room broadcaster *)

Section Rooms.
Implicit Types (rooms : gmap Z (gset Conn)) (n : Net) (ws : Conn)
  (m : WireMsg) (dead sockets : list Conn).

Lemma send_json_accepts n ws m :
  send_json n ws m
  = if accepts n m ws
    then (Ok tt, {| closed := closed n; delivered := delivered n ++ [(ws, m)] |})
    else (Raise (if json_serialisable m then ConnectionClosed else TypeError),
          n).
Proof.
  unfold send_json, accepts.
  destruct (json_serialisable m); simpl; [|done].
  destruct (decide (ws ∈ closed n)).
  - by rewrite bool_decide_eq_false_2 by auto.
  - by rewrite bool_decide_eq_true_2.
Qed.

Lemma send_all_spec n sockets m :
  send_all n sockets m
  = ({| closed := closed n;
        delivered :=
          delivered n
          ++ ((fun ws => (ws, m)) <$> List.filter (accepts n m) sockets) |},
     List.filter (fun ws => negb (accepts n m ws)) sockets).
Proof.
  revert n. induction sockets as [|ws rest IH]; intros n; simpl.
  - rewrite app_nil_r. by destruct n.
  - rewrite send_json_accepts. destruct (accepts n m ws) eqn:Hacc; simpl.
    + rewrite IH. simpl. unfold accepts at 1 2. simpl.
      fold (accepts n m). by rewrite <- app_assoc.
    + by rewrite IH.
Qed.

Lemma connect_insert rooms i ws :
  connect rooms i ws = <[i := room rooms i ∪ {[ws]}]> rooms.
Proof.
  unfold connect, room. destruct (rooms !! i) eqn:Hi; simpl.
  - by rewrite Hi.
  - by rewrite lookup_insert_eq, insert_insert_eq.
Qed.

Lemma foldl_discard rooms i dead :
  foldl (discard i) rooms dead
  = match rooms !! i with
    | None => rooms
    | Some s => <[i := s ∖ list_to_set dead]> rooms
    end.
Proof.
  revert rooms. induction dead as [|ws dead IH]; intros rooms; simpl.
  - destruct (rooms !! i) eqn:Hi; [|done].
    rewrite difference_empty_L. by rewrite insert_id.
  - rewrite IH. unfold discard.
    destruct (rooms !! i) eqn:Hi; [|by rewrite Hi].
    rewrite lookup_insert_eq, insert_insert_eq. f_equal.
    apply difference_difference_l_L.
Qed.

Lemma prune_spec rooms i dead :
  prune rooms i dead
  = match rooms !! i with
    | None => rooms
    | Some s =>
        if decide (s ∖ list_to_set dead = ∅) then delete i rooms
        else <[i := s ∖ list_to_set dead]> rooms
    end.
Proof.
  unfold prune. rewrite foldl_discard.
  destruct (rooms !! i) eqn:Hi; [|by rewrite Hi].
  rewrite lookup_insert_eq. case_decide; [|done].
  by rewrite delete_insert_eq.
Qed.

Lemma room_prune rooms i dead :
  room (prune rooms i dead) i = room rooms i ∖ list_to_set dead.
Proof.
  rewrite prune_spec. unfold room.
  destruct (rooms !! i) eqn:Hi; simpl.
  - case_decide as He.
    + rewrite lookup_delete_eq. simpl. by rewrite He.
    + by rewrite lookup_insert_eq.
  - rewrite Hi. simpl. symmetry.
    apply subseteq_empty_difference_L, empty_subseteq.
Qed.

Lemma prune_other rooms i j dead :
  i ≠ j → prune rooms i dead !! j = rooms !! j.
Proof.
  intros Hne. rewrite prune_spec.
  destruct (rooms !! i); [|done].
  case_decide; [by rewrite lookup_delete_ne | by rewrite lookup_insert_ne].
Qed.

Lemma room_disconnect rooms i ws :
  room (disconnect rooms i ws) i = room rooms i ∖ {[ws]}.
Proof.
  unfold disconnect, room. destruct (rooms !! i) eqn:Hi; simpl.
  - case_decide as He.
    + rewrite lookup_delete_eq. simpl. by rewrite He.
    + by rewrite lookup_insert_eq.
  - rewrite Hi. simpl. symmetry.
    apply subseteq_empty_difference_L, empty_subseteq.
Qed.

(** The three ways the program changes the room map. *)
Lemma connect_no_empty_room rooms i ws :
  no_empty_room rooms → no_empty_room (connect rooms i ws).
Proof.
  intros Hinv j s. rewrite connect_insert.
  destruct (decide (i = j)) as [->|Hne].
  - rewrite lookup_insert_eq. intros [= <-] He.
    apply (not_elem_of_empty (C := gset Conn) ws). rewrite <- He.
    apply elem_of_union_r, elem_of_singleton_2. done.
  - rewrite lookup_insert_ne by done. apply Hinv.
Qed.

Lemma disconnect_no_empty_room rooms i ws :
  no_empty_room rooms → no_empty_room (disconnect rooms i ws).
Proof.
  intros Hinv j s. unfold disconnect.
  destruct (rooms !! i) eqn:Hi; [|apply Hinv].
  case_decide as He; destruct (decide (i = j)) as [->|Hne].
  - by rewrite lookup_delete_eq.
  - rewrite lookup_delete_ne by done. apply Hinv.
  - rewrite lookup_insert_eq. by intros [= <-].
  - rewrite lookup_insert_ne by done. apply Hinv.
Qed.

Lemma prune_no_empty_room rooms i dead :
  no_empty_room rooms → no_empty_room (prune rooms i dead).
Proof.
  intros Hinv j s. rewrite prune_spec.
  destruct (rooms !! i) eqn:Hi; [|apply Hinv].
  case_decide as He; destruct (decide (i = j)) as [->|Hne].
  - by rewrite lookup_delete_eq.
  - rewrite lookup_delete_ne by done. apply Hinv.
  - rewrite lookup_insert_eq. by intros [= <-].
  - rewrite lookup_insert_ne by done. apply Hinv.
Qed.

Lemma broadcast_spec rooms n i m :
  broadcast rooms n i m
  = (match List.filter (fun ws => negb (accepts n m ws)) (snapshot rooms i)
     with
     | [] => rooms
     | dead => prune rooms i dead
     end,
     {| closed := closed n;
        delivered := delivered n ++ sent_by_broadcast rooms n i m |}).
Proof.
  unfold broadcast, sent_by_broadcast.
  destruct (snapshot rooms i) as [|ws rest] eqn:Hs.
  - simpl. rewrite app_nil_r. by destruct n.
  - rewrite send_all_spec.
    by destruct (List.filter (fun ws => negb (accepts n m ws)) (ws :: rest)).
Qed.

Lemma broadcast_no_empty_room rooms n i m :
  no_empty_room rooms → no_empty_room (fst (broadcast rooms n i m)).
Proof.
  intros Hinv. rewrite broadcast_spec. simpl.
  destruct (List.filter _ _); [done | by apply prune_no_empty_room].
Qed.

Lemma room_step_no_empty_room op rooms :
  no_empty_room rooms → no_empty_room (room_step op rooms).
Proof.
  destruct op; simpl;
    auto using connect_no_empty_room, disconnect_no_empty_room,
      prune_no_empty_room.
Qed.

Lemma run_rooms_no_empty_room ops rooms :
  no_empty_room rooms → no_empty_room (run_rooms ops rooms).
Proof.
  revert rooms. induction ops as [|op ops IH]; intros rooms Hinv; simpl.
  - done.
  - apply IH. by apply room_step_no_empty_room.
Qed.

(** A room gains a member only through [connect] of that member. *)
Lemma room_step_member op rooms i ws :
  op ≠ OpConnect i ws →
  ws ∈ room (room_step op rooms) i → ws ∈ room rooms i.
Proof.
  intros Hop. destruct op as [j c|j c|j dead]; simpl.
  - rewrite connect_insert. unfold room at 1.
    destruct (decide (j = i)) as [->|Hne].
    + rewrite lookup_insert_eq. simpl. rewrite elem_of_union.
      intros [H|H]; [done|]. apply elem_of_singleton in H. congruence.
    + by rewrite lookup_insert_ne.
  - destruct (decide (j = i)) as [->|Hne].
    + rewrite room_disconnect, elem_of_difference. tauto.
    + unfold disconnect, room at 1. destruct (rooms !! j); [|done].
      by case_decide; rewrite ?lookup_delete_ne, ?lookup_insert_ne.
  - destruct (decide (j = i)) as [->|Hne].
    + rewrite room_prune, elem_of_difference. tauto.
    + unfold room at 1. by rewrite prune_other.
Qed.

Lemma run_rooms_member ops rooms i ws :
  (∀ op, op ∈ ops → op ≠ OpConnect i ws) →
  ws ∈ room (run_rooms ops rooms) i → ws ∈ room rooms i.
Proof.
  revert rooms. induction ops as [|op ops IH]; intros rooms Hops; simpl.
  - done.
  - intros H. apply IH in H; [|intros; apply Hops; by right].
    apply (room_step_member op); [apply Hops; by left | done].
Qed.

Lemma elem_of_sent_by_broadcast rooms n i m ws m' :
  (ws, m') ∈ sent_by_broadcast rooms n i m
  ↔ m' = m ∧ ws ∈ room rooms i ∧ accepts n m ws = true.
Proof.
  unfold sent_by_broadcast, snapshot. rewrite list_elem_of_fmap. split.
  - intros (c & [= -> ->] & Hc).
    apply list_elem_of_In, filter_In in Hc as [Hc Hacc].
    apply list_elem_of_In, elem_of_elements in Hc. done.
  - intros (-> & Hc & Hacc). exists ws. split; [done|].
    apply list_elem_of_In, filter_In. split; [|done].
    by apply list_elem_of_In, elem_of_elements.
Qed.

Lemma broadcast_room rooms n i m ws :
  ws ∈ room (fst (broadcast rooms n i m)) i
  ↔ ws ∈ room rooms i ∧ accepts n m ws = true.
Proof.
  rewrite broadcast_spec. simpl.
  set (dead := List.filter (fun ws => negb (accepts n m ws)) (snapshot rooms i)).
  assert (ws ∈ dead ↔ ws ∈ room rooms i ∧ accepts n m ws = false) as Hdead.
  { unfold dead, snapshot. rewrite list_elem_of_In, filter_In.
    rewrite <- list_elem_of_In, elem_of_elements, negb_true_iff. done. }
  assert (ws ∈ room (prune rooms i dead) i
          ↔ ws ∈ room rooms i ∧ accepts n m ws = true) as Hgoal.
  { rewrite room_prune, elem_of_difference, elem_of_list_to_set, Hdead.
    destruct (accepts n m ws); intuition congruence. }
  destruct dead as [|c dead'] eqn:Hd; [|done].
  rewrite <- Hgoal, room_prune. simpl. by rewrite difference_empty_L.
Qed.

Lemma registered_room rooms i ws : registered rooms i ws ↔ ws ∈ room rooms i.
Proof.
  unfold registered, room. destruct (rooms !! i) as [s|]; simpl.
  - split; [by intros (s' & [= <-] & H) | intros H; by exists s].
  - split; [by intros (s' & [=] & _) | intros H].
    by apply not_elem_of_empty in H.
Qed.

Lemma accepts_send_json n m ws :
  accepts n m ws = true ↔ fst (send_json n ws m) = Ok tt.
Proof.
  rewrite send_json_accepts. by destruct (accepts n m ws).
Qed.

(** C7. A broadcast to room [i] delivers the message exactly once to every
    connection that the room map holds under [i] when the snapshot is taken
    and whose send succeeds, and to no other connection, so to none that is
    held only under another incident; every connection held under [i] whose
    send fails is no longer held under [i] afterwards and, until it
    connects to the room again, receives nothing from any later broadcast
    to it; the other rooms are untouched; and when the map has no entry
    for [i], or an empty one, the broadcast changes neither the rooms nor
    the connections. *)
Theorem broadcast_delivers_and_prunes rooms n i m :
  let rooms' := fst (broadcast rooms n i m) in
  let n' := snd (broadcast rooms n i m) in
  delivered n' = delivered n ++ sent_by_broadcast rooms n i m
  ∧ closed n' = closed n
  ∧ NoDup (sent_by_broadcast rooms n i m)
  ∧ (∀ ws m', (ws, m') ∈ sent_by_broadcast rooms n i m
              ↔ m' = m
                ∧ (∃ s, rooms !! i = Some s ∧ ws ∈ s)
                ∧ fst (send_json n ws m) = Ok tt)
  ∧ (∀ ws, (∃ s, rooms' !! i = Some s ∧ ws ∈ s)
           ↔ (∃ s, rooms !! i = Some s ∧ ws ∈ s)
             ∧ fst (send_json n ws m) = Ok tt)
  ∧ (∀ j, j ≠ i → rooms' !! j = rooms !! j)
  ∧ (∀ ws s, rooms !! i = Some s → ws ∈ s →
       fst (send_json n ws m) ≠ Ok tt →
       ∀ ops, (∀ op, op ∈ ops → op ≠ OpConnect i ws) →
       (∀ s', run_rooms ops rooms' !! i = Some s' → ws ∉ s')
       ∧ ∀ n2 m2 m',
           (ws, m') ∉ sent_by_broadcast (run_rooms ops rooms') n2 i m2)
  ∧ (rooms !! i = None ∨ rooms !! i = Some ∅ → rooms' = rooms ∧ n' = n).
Proof.
  cbv zeta. split; [by rewrite broadcast_spec|].
  split; [by rewrite broadcast_spec|].
  split.
  { unfold sent_by_broadcast. apply NoDup_fmap_2; [by intros ?? [=]|].
    apply NoDup_ListNoDup, List.NoDup_filter, NoDup_ListNoDup, NoDup_elements. }
  split.
  { intros ws m'. rewrite elem_of_sent_by_broadcast.
    fold (registered rooms i ws).
    by rewrite registered_room, accepts_send_json. }
  split.
  { intros ws.
    fold (registered (fst (broadcast rooms n i m)) i ws).
    fold (registered rooms i ws).
    by rewrite !registered_room, broadcast_room, accepts_send_json. }
  split.
  { intros j Hne. rewrite broadcast_spec. simpl.
    destruct (List.filter _ _); [done | by apply prune_other]. }
  split.
  { intros ws s Hs Hin Hfail ops Hops.
    assert (ws ∉ room (run_rooms ops (fst (broadcast rooms n i m))) i)
      as Hout.
    { intros Hroom. apply run_rooms_member in Hroom; [|done].
      apply broadcast_room in Hroom as [_ Hacc].
      by apply accepts_send_json in Hacc. }
    split.
    - intros s' Hs' Hin'. apply Hout. unfold room. by rewrite Hs'.
    - intros n2 m2 m' Hsent.
      by apply elem_of_sent_by_broadcast in Hsent as (_ & Hroom & _). }
  intros Hempty.
  assert (room rooms i = ∅) as Hroom.
  { unfold room. by destruct Hempty as [-> | ->]. }
  unfold broadcast, snapshot. rewrite Hroom.
  by rewrite elements_empty.
Qed.

Lemma broadcast_delivers_and_prunes_witness :
  delivered (snd (broadcast two_rooms peer_5_gone 1 (MsgSystem "ping")))
  = [(4%nat, MsgSystem "ping")]
  ∧ fst (broadcast two_rooms peer_5_gone 1 (MsgSystem "ping")) !! 1
    = Some {[ 4%nat ]}
  ∧ fst (broadcast two_rooms peer_5_gone 1 (MsgSystem "ping")) !! 2
    = Some {[ 6%nat ]}.
Proof.
  destruct (broadcast_delivers_and_prunes two_rooms peer_5_gone 1
              (MsgSystem "ping")) as (Hd & _ & _ & _ & _ & Hother & _).
  split; [rewrite Hd; by vm_compute|].
  split; [by vm_compute|].
  rewrite Hother by done. by vm_compute.
Defined.

End Rooms.

(** ** The enrichment worker *)

Section Worker.
Implicit Types (w : World) (job : HumanUpdateJob.t) (f fa fb : Fresh)
  (inc : Incident.t).

(** The guard compares the rendering of the enum member, which starts with
    the class name, with the bare value: it holds for no incident. *)
Lemma status_str_is_resolved_never inc : status_str_is_resolved inc = false.
Proof. unfold status_str_is_resolved. by destruct (Incident.status inc). Qed.

Lemma store_ws_broadcast w i m : store (ws_broadcast w i m) = store w.
Proof. unfold ws_broadcast. by destruct (broadcast _ _ _ _). Qed.

Lemma printed_ws_broadcast w i m : printed (ws_broadcast w i m) = printed w.
Proof. unfold ws_broadcast. by destruct (broadcast _ _ _ _). Qed.

Lemma timeline_of_add_event st id inc ev :
  get_incident st id = Some inc →
  timeline_of (snd (add_event st id ev)) id = Incident.timeline inc ++ [ev].
Proof.
  intros H. rewrite (add_event_known _ _ _ _ H).
  unfold timeline_of, get_incident. simpl. by rewrite lookup_insert_eq.
Qed.

Lemma worker_stage_a_known f job w inc :
  get_incident (store w) (HumanUpdateJob.incident_id job) = Some inc →
  worker_stage_a f job w
  = (ws_broadcast
       (set_store w
          (snd (add_event (store w) (HumanUpdateJob.incident_id job)
                  (ai_tag_event f job))))
       (HumanUpdateJob.incident_id job)
       (MsgTimelineEvent ModeJson (ai_tag_event f job)),
     true).
Proof.
  intros H. unfold worker_stage_a. rewrite H.
  rewrite status_str_is_resolved_never.
  by rewrite (add_event_known _ _ _ _ H).
Qed.

Lemma worker_stage_b_known f job w inc :
  get_incident (store w) (HumanUpdateJob.incident_id job) = Some inc →
  worker_stage_b f job w
  = ws_broadcast
      (set_store w
         (snd (add_event (store w) (HumanUpdateJob.incident_id job)
                 (ai_summary_event f job))))
      (HumanUpdateJob.incident_id job)
      (MsgTimelineEvent ModeJson (ai_summary_event f job)).
Proof.
  intros H. unfold worker_stage_b. by rewrite (add_event_known _ _ _ _ H).
Qed.

(** A job for an identifier the store does not know is dropped: the world
    stays as it is, nothing is appended, sent or printed. *)
Lemma worker_stage_a_unknown f job w :
  get_incident (store w) (HumanUpdateJob.incident_id job) = None →
  worker_stage_a f job w = (w, false)
  ∧ ∀ fb, worker_job f fb job w = w.
Proof.
  intros H. unfold worker_job, worker_stage_a. by rewrite H.
Qed.

(** No block of the program removes an incident from the store. *)
Lemma step_keeps_incident a w id :
  is_Some (get_incident (store w) id) →
  is_Some (get_incident (store (step a w)) id).
Proof.
  assert (∀ st i ev, is_Some (get_incident st id) →
            is_Some (get_incident (snd (add_event st i ev)) id)) as Hadd.
  { intros st i ev H. unfold add_event, get_incident in *.
    destruct (_incidents st !! i) eqn:Hi; [|done]. simpl.
    destruct (decide (i = id)) as [->|Hne].
    - by rewrite lookup_insert_eq.
    - by rewrite lookup_insert_ne. }
  assert (∀ st f i s, is_Some (get_incident st id) →
            is_Some (get_incident (snd (update_status st f i s)) id)) as Hupd.
  { intros st f i s H. unfold update_status, get_incident in *.
    destruct (_incidents st !! i) eqn:Hi; [|done]. simpl.
    destruct (decide (i = id)) as [->|Hne].
    - by rewrite lookup_insert_eq.
    - by rewrite lookup_insert_ne. }
  assert (∀ w f job, is_Some (get_incident (store w) id) →
            is_Some (get_incident (store (fst (worker_stage_a f job w))) id))
    as Ha.
  { intros w' f job H. unfold worker_stage_a.
    destruct (get_incident (store w') (HumanUpdateJob.incident_id job))
      eqn:Hi; [|done].
    rewrite status_str_is_resolved_never.
    specialize (Hadd (store w') (HumanUpdateJob.incident_id job)
                  (ai_tag_event f job) H).
    destruct (add_event _ _ _) as [[?|?] ?]; simpl in *; [|done].
    by rewrite store_ws_broadcast. }
  assert (∀ w f job, is_Some (get_incident (store w) id) →
            is_Some (get_incident (store (worker_stage_b f job w)) id)) as Hb.
  { intros w' f job H. unfold worker_stage_b.
    specialize (Hadd (store w') (HumanUpdateJob.incident_id job)
                  (ai_summary_event f job) H).
    destruct (add_event _ _ _) as [[?|?] ?]; simpl in *; [|done].
    by rewrite store_ws_broadcast. }
  assert (∀ w k f job, is_Some (get_incident (store w) id) →
            is_Some (get_incident (store (run_locked k f job w)) id)) as Hl.
  { intros w' k f job H. unfold run_locked.
    specialize (Ha w' f job H).
    destruct (worker_stage_a f job w') as [w'' []]; done. }
  intros H. destruct a; simpl.
  - unfold http_create_incident. case_match; [|done]. simpl.
    unfold get_incident in *. simpl.
    destruct (decide (_next_id (store w) = id)) as [->|Hne].
    + by rewrite lookup_insert_eq.
    + by rewrite lookup_insert_ne.
  - unfold update_incident_status.
    specialize (Hupd (store w) f_change incident_id new_status H).
    destruct (update_status _ _ _ _) as [[inc|?] st]; [|done].
    by rewrite status_str_is_resolved_never.
  - unfold incident_room_ws_open, send_or_end, end_session.
    repeat case_match; done.
  - unfold incident_room_ws_receive, send_or_end, end_session.
    repeat case_match; simplify_eq; try done.
    simpl. rewrite store_ws_broadcast. simpl.
    match goal with
    | Heq : add_event ?st ?i ?ev = _ |- _ =>
        specialize (Hadd st i ev H); by rewrite Heq in Hadd
    end.
  - unfold incident_room_ws_closed, end_session. by case_match.
  - done.
  - unfold worker_step.
    repeat case_match;
      first [done | by apply Hl | by (simpl; apply Hb)].
Qed.

Lemma run_keeps_incident schedule w id :
  is_Some (get_incident (store w) id) →
  is_Some (get_incident (store (run schedule w)) id).
Proof.
  revert w. induction schedule as [|a schedule IH]; intros w H; simpl.
  - done.
  - apply IH. by apply step_keeps_incident.
Qed.

(** C2. For a job whose incident is in the store and not resolved when the
    worker re-fetches it, Stage A appends the [ai_tag] event and the worker
    goes on; whatever the rest of the program does while the worker sleeps,
    Stage B then appends the [ai_summary] event to the timeline as it stands;
    with nothing in between, the timeline grows by exactly these two events
    in this order.  Both payloads carry the job's [human_event_id] as
    [source_event_id], and the worker prints no error. *)
Theorem worker_appends_tag_then_summary w job fa fb inc :
  get_incident (store w) (HumanUpdateJob.incident_id job) = Some inc →
  Incident.status inc ≠ resolved →
  let id := HumanUpdateJob.incident_id job in
  let w1 := fst (worker_stage_a fa job w) in
  snd (worker_stage_a fa job w) = true
  ∧ timeline_of (store w1) id = Incident.timeline inc ++ [ai_tag_event fa job]
  ∧ (∀ during,
       timeline_of (store (worker_stage_b fb job (run during w1))) id
       = timeline_of (store (run during w1)) id ++ [ai_summary_event fb job])
  ∧ timeline_of (store (worker_job fa fb job w)) id
    = Incident.timeline inc ++ [ai_tag_event fa job; ai_summary_event fb job]
  ∧ TimelineEvent.type (ai_tag_event fa job) = ai_tag
  ∧ TimelineEvent.type (ai_summary_event fb job) = ai_summary
  ∧ payload_get "source_event_id" (TimelineEvent.payload (ai_tag_event fa job))
    = Some (VStr (HumanUpdateJob.human_event_id job))
  ∧ payload_get "source_event_id"
      (TimelineEvent.payload (ai_summary_event fb job))
    = Some (VStr (HumanUpdateJob.human_event_id job))
  ∧ printed (worker_job fa fb job w) = printed w.
Proof.
  intros Hget _. cbv zeta.
  assert (∀ w' inc' f,
            get_incident (store w') (HumanUpdateJob.incident_id job)
            = Some inc' →
            timeline_of (store (worker_stage_b f job w'))
              (HumanUpdateJob.incident_id job)
            = Incident.timeline inc' ++ [ai_summary_event f job]) as Hb.
  { intros w' inc' f H. rewrite (worker_stage_b_known _ _ _ _ H).
    rewrite store_ws_broadcast. simpl. by apply timeline_of_add_event. }
  assert (timeline_of (store (fst (worker_stage_a fa job w)))
            (HumanUpdateJob.incident_id job)
          = Incident.timeline inc ++ [ai_tag_event fa job]) as Ha.
  { rewrite (worker_stage_a_known _ _ _ _ Hget). simpl.
    rewrite store_ws_broadcast. simpl. by apply timeline_of_add_event. }
  split; [by rewrite (worker_stage_a_known _ _ _ _ Hget)|].
  split; [done|]. split.
  { intros during.
    destruct (run_keeps_incident during (fst (worker_stage_a fa job w))
                (HumanUpdateJob.incident_id job)) as [inc2 H2].
    - rewrite (worker_stage_a_known _ _ _ _ Hget). simpl.
      rewrite store_ws_broadcast. simpl.
      rewrite (add_event_known _ _ _ _ Hget). unfold get_incident. simpl.
      by rewrite lookup_insert_eq.
    - rewrite (Hb _ _ _ H2). unfold timeline_of. by rewrite H2. }
  split.
  { unfold worker_job.
    destruct (worker_stage_a fa job w) as [w1 go] eqn:Hw1.
    rewrite (worker_stage_a_known _ _ _ _ Hget) in Hw1.
    injection Hw1 as <- <-. simpl in Ha.
    assert (∃ inc1, get_incident
                      (store (ws_broadcast
                        (set_store w
                          (snd (add_event (store w)
                                  (HumanUpdateJob.incident_id job)
                                  (ai_tag_event fa job))))
                        (HumanUpdateJob.incident_id job)
                        (MsgTimelineEvent ModeJson (ai_tag_event fa job))))
                      (HumanUpdateJob.incident_id job) = Some inc1
                    ∧ Incident.timeline inc1
                      = Incident.timeline inc ++ [ai_tag_event fa job])
      as (inc1 & H1 & Ht1).
    { rewrite store_ws_broadcast. simpl.
      rewrite (add_event_known _ _ _ _ Hget). unfold get_incident. simpl.
      rewrite lookup_insert_eq. by eexists. }
    rewrite (Hb _ _ _ H1), Ht1. by rewrite <- app_assoc. }
  repeat split.
  unfold worker_job. rewrite (worker_stage_a_known _ _ _ _ Hget).
  unfold worker_stage_b.
  destruct (add_event _ _ _) as [[?|e] ?] eqn:Hadd.
  - rewrite printed_ws_broadcast. simpl. by rewrite printed_ws_broadcast.
  - rewrite store_ws_broadcast in Hadd. simpl in Hadd.
    rewrite (add_event_known _ _ _ _ Hget) in Hadd. simpl in Hadd.
    unfold add_event in Hadd. simpl in Hadd.
    by rewrite lookup_insert_eq in Hadd.
Qed.

Lemma worker_appends_tag_then_summary_witness :
  TimelineEvent.type
  <$> timeline_of
        (store (worker_job (fresh 2) (fresh 3)
                  {| HumanUpdateJob.incident_id := 1;
                     HumanUpdateJob.human_event_id := "1";
                     HumanUpdateJob.message := "db down" |}
                  (run update_posted initial_world))) 1
  = [system; human_update; ai_tag; ai_summary].
Proof.
  pose proof (worker_appends_tag_then_summary
                (run update_posted initial_world)
                {| HumanUpdateJob.incident_id := 1;
                   HumanUpdateJob.human_event_id := "1";
                   HumanUpdateJob.message := "db down" |}
                (fresh 2) (fresh 3) _ eq_refl) as H.
  assert (∀ x y : IncidentStatus, x = y → x ≠ resolved → y ≠ resolved) as Hne
    by (by intros ?? ->).
  specialize (H (Hne investigating _ eq_refl ltac:(discriminate))).
  destruct H as (_ & _ & _ & H & _).
  exact (eq_trans (f_equal (fmap TimelineEvent.type) H) eq_refl).
Defined.

(** C5 on the program: when the worker re-fetches an incident that is
    resolved, the guard does not hold (see [status_str_is_resolved_never])
    and the job is processed: two events are appended and sent to the
    viewer.  (A job for an unknown identifier is dropped,
    [worker_stage_a_unknown].) *)
Theorem worker_processes_resolved_incident :
  let before :=
    run (update_posted ++ [UpdateStatus (fresh 2) (fresh 3) 1 resolved])
      initial_world in
  let after := run resolved_before_dequeue initial_world in
  status_of (store before) 1 = Some resolved
  ∧ HumanUpdateJob.incident_id <$> processor_queue before = [1]
  ∧ TimelineEvent.type <$> timeline_of (store before) 1
    = [system; human_update; status_change]
  ∧ TimelineEvent.type <$> timeline_of (store after) 1
    = [system; human_update; status_change; ai_tag; ai_summary]
  ∧ length (delivered (net after)) = (length (delivered (net before)) + 2)%nat.
Proof. by vm_compute. Qed.

(** C1 on the program: events are appended to a resolved incident.  An
    [ai_summary] follows the change to [resolved] when the incident is
    resolved while the worker sleeps, since Stage B does not look at the
    status again; and after the change a posted update and its two
    enrichment events are appended, since the guards do not hold.  No
    [system] event records the transition. *)
Theorem events_appended_after_resolved :
  let raced := run resolved_during_sleep initial_world in
  let late := run update_after_resolved initial_world in
  status_of (store raced) 1 = Some resolved
  ∧ TimelineEvent.type <$> timeline_of (store raced) 1
    = [system; human_update; ai_tag; status_change; ai_summary]
  ∧ status_of (store late) 1 = Some resolved
  ∧ TimelineEvent.type <$> timeline_of (store late) 1
    = [system; human_update; ai_tag; ai_summary; status_change;
       human_update; ai_tag; ai_summary].
Proof. by vm_compute. Qed.

End Worker.

(** ** The room map of the running system *)

Section SystemRooms.
Implicit Types (w : World).

Lemma ws_broadcast_no_empty_room w i m :
  no_empty_room (ws_manager w) →
  no_empty_room (ws_manager (ws_broadcast w i m)).
Proof.
  intros H. unfold ws_broadcast.
  pose proof (broadcast_no_empty_room (ws_manager w) (net w) i m H) as Hb.
  by destruct (broadcast _ _ _ _).
Qed.

Lemma end_session_no_empty_room c i w :
  no_empty_room (ws_manager w) →
  no_empty_room (ws_manager (end_session c i w)).
Proof. intros H. simpl. by apply disconnect_no_empty_room. Qed.

Lemma send_or_end_no_empty_room c i m w :
  no_empty_room (ws_manager w) →
  no_empty_room (ws_manager (send_or_end c i m w)).
Proof.
  intros H. unfold send_or_end.
  destruct (send_json _ _ _) as [[?|?] ?]; [done|].
  by apply end_session_no_empty_room.
Qed.

Lemma worker_stage_a_no_empty_room f job w :
  no_empty_room (ws_manager w) →
  no_empty_room (ws_manager (fst (worker_stage_a f job w))).
Proof.
  intros H. unfold worker_stage_a.
  repeat case_match; try done. simpl. by apply ws_broadcast_no_empty_room.
Qed.

Lemma worker_stage_b_no_empty_room f job w :
  no_empty_room (ws_manager w) →
  no_empty_room (ws_manager (worker_stage_b f job w)).
Proof.
  intros H. unfold worker_stage_b.
  repeat case_match; try done. by apply ws_broadcast_no_empty_room.
Qed.

Lemma run_locked_no_empty_room k f job w :
  no_empty_room (ws_manager w) →
  no_empty_room (ws_manager (run_locked k f job w)).
Proof.
  intros H. unfold run_locked.
  pose proof (worker_stage_a_no_empty_room f job w H) as Ha.
  by destruct (worker_stage_a f job w) as [w' []].
Qed.

Lemma step_no_empty_room a w :
  no_empty_room (ws_manager w) → no_empty_room (ws_manager (step a w)).
Proof.
  intros H. destruct a; simpl.
  - unfold http_create_incident. by case_match.
  - unfold update_incident_status.
    repeat case_match;
      first [ done | simpl; by apply ws_broadcast_no_empty_room ].
  - unfold incident_room_ws_open. repeat case_match; try done.
    apply send_or_end_no_empty_room. simpl. by apply connect_no_empty_room.
  - unfold incident_room_ws_receive.
    repeat case_match;
      first [ done
            | by apply send_or_end_no_empty_room
            | by apply end_session_no_empty_room
            | simpl; by apply ws_broadcast_no_empty_room ].
  - unfold incident_room_ws_closed. case_match; [|done].
    by apply end_session_no_empty_room.
  - done.
  - unfold worker_step.
    repeat case_match;
      first [ done
            | by apply run_locked_no_empty_room
            | simpl; by apply worker_stage_b_no_empty_room ].
Qed.

Lemma run_no_empty_room schedule w :
  no_empty_room (ws_manager w) → no_empty_room (ws_manager (run schedule w)).
Proof.
  revert w. induction schedule as [|a schedule IH]; intros w H; simpl.
  - done.
  - apply IH. by apply step_no_empty_room.
Qed.

(** C8. Starting from the empty room map, after any sequence of [connect],
    [disconnect] and pruning passes, and after any schedule of the whole
    program, no key of the map holds an empty set; and whatever the map
    was, the room a [disconnect] or a pruning pass has worked on is either
    gone or non-empty. *)
Theorem rooms_never_empty :
  (∀ ops, no_empty_room (run_rooms ops ∅))
  ∧ (∀ schedule, no_empty_room (ws_manager (run schedule initial_world)))
  ∧ (∀ rooms i ws s, disconnect rooms i ws !! i = Some s → s ≠ ∅)
  ∧ (∀ rooms i dead s, prune rooms i dead !! i = Some s → s ≠ ∅)
  ∧ (∀ rooms n i m,
       no_empty_room rooms → no_empty_room (fst (broadcast rooms n i m))).
Proof.
  split; [|split; [|split; [|split]]].
  - intros ops. apply run_rooms_no_empty_room. by intros i s.
  - intros schedule. apply run_no_empty_room. by intros i s.
  - intros rooms i ws s. unfold disconnect.
    destruct (rooms !! i) eqn:Hi; [|congruence].
    case_decide; [by rewrite lookup_delete_eq|].
    rewrite lookup_insert_eq. by intros [= <-].
  - intros rooms i dead s. rewrite prune_spec.
    destruct (rooms !! i) eqn:Hi; [|congruence].
    case_decide; [by rewrite lookup_delete_eq|].
    rewrite lookup_insert_eq. by intros [= <-].
  - intros. by apply broadcast_no_empty_room.
Qed.

End SystemRooms.

(** ** The store under the running system *)

Section StoreEvolution.
Implicit Types (st : IncidentStore) (w : World) (inc : Incident.t).

Lemma store_evolves_trans st1 st2 st3 :
  store_evolves st1 st2 → store_evolves st2 st3 → store_evolves st1 st3.
Proof.
  intros H12 H23. induction H23.
  - done.
  - by apply evolves_create.
  - by apply evolves_add.
  - by apply evolves_status.
Qed.

Lemma worker_stage_a_store f job w :
  store (fst (worker_stage_a f job w)) = store w
  ∨ store (fst (worker_stage_a f job w))
    = snd (add_event (store w) (HumanUpdateJob.incident_id job)
             (ai_tag_event f job)).
Proof.
  destruct (get_incident (store w) (HumanUpdateJob.incident_id job))
    as [inc|] eqn:Hget.
  - right. rewrite (worker_stage_a_known _ _ _ _ Hget). simpl.
    by rewrite store_ws_broadcast.
  - left. by rewrite (proj1 (worker_stage_a_unknown f job w Hget)).
Qed.

Lemma worker_stage_b_store f job w :
  store (worker_stage_b f job w)
  = snd (add_event (store w) (HumanUpdateJob.incident_id job)
           (ai_summary_event f job)).
Proof.
  unfold worker_stage_b.
  destruct (_incidents (store w) !! HumanUpdateJob.incident_id job)
    as [inc|] eqn:Hget.
  - rewrite (add_event_known _ _ _ _ Hget). by rewrite store_ws_broadcast.
  - by rewrite (add_event_unknown _ _ _ Hget).
Qed.

Lemma run_locked_store k f job w :
  store (run_locked k f job w) = store (fst (worker_stage_a f job w)).
Proof. unfold run_locked. by destruct (worker_stage_a f job w) as [? []]. Qed.

Lemma worker_stage_a_evolves f job w :
  store_evolves (store w) (store (fst (worker_stage_a f job w))).
Proof.
  destruct (worker_stage_a_store f job w) as [-> | ->].
  - apply evolves_refl.
  - apply evolves_add; [done | apply evolves_refl].
Qed.

(** Each block of the program changes the store through the store's own
    operations only. *)
Lemma step_store_evolves a w : store_evolves (store w) (store (step a w)).
Proof.
  destruct a; simpl.
  - unfold http_create_incident. case_match; [|apply evolves_refl].
    simpl. apply evolves_create, evolves_refl.
  - unfold update_incident_status.
    pose proof (evolves_status (store w) (store w) f_change incident_id
                  new_status (evolves_refl _)) as Hupd.
    destruct (update_status _ _ _ _) as [[inc|?] st]; [|apply evolves_refl].
    by rewrite status_str_is_resolved_never.
  - unfold incident_room_ws_open, send_or_end, end_session.
    repeat case_match; apply evolves_refl.
  - unfold incident_room_ws_receive, send_or_end, end_session.
    repeat case_match; simplify_eq; try apply evolves_refl.
    simpl. rewrite store_ws_broadcast. simpl.
    match goal with
    | Heq : add_event ?st ?i ?ev = _ |- _ =>
        pose proof (evolves_add st st i ev eq_refl (evolves_refl _)) as Hadd;
        by rewrite Heq in Hadd
    end.
  - unfold incident_room_ws_closed, end_session.
    case_match; apply evolves_refl.
  - apply evolves_refl.
  - unfold worker_step.
    repeat case_match; try apply evolves_refl.
    + rewrite run_locked_store.
      match goal with
      | |- store_evolves _ (store (fst (worker_stage_a ?f ?j ?w'))) =>
          exact (worker_stage_a_evolves f j w')
      end.
    + rewrite run_locked_store.
      match goal with
      | |- store_evolves _ (store (fst (worker_stage_a ?f ?j ?w'))) =>
          exact (worker_stage_a_evolves f j w')
      end.
    + simpl. rewrite worker_stage_b_store.
      apply evolves_add; [done | apply evolves_refl].
Qed.

Lemma run_store_evolves schedule w :
  store_evolves (store w) (store (run schedule w)).
Proof.
  revert w. induction schedule as [|a schedule IH]; intros w; simpl.
  - apply evolves_refl.
  - eapply store_evolves_trans; [apply step_store_evolves | apply IH].
Qed.

Lemma create_incident_wf st created f title sev :
  store_wf st → store_wf (snd (create_incident st created f title sev)).
Proof.
  intros [Hn Hwf]. split; simpl; [lia|].
  intros k inc. destruct (decide (_next_id st = k)) as [<-|Hne].
  - rewrite lookup_insert_eq. intros [= <-]. simpl.
    split; [done|]. split; [lia|]. split; [by eexists _, _|].
    intros e He. apply list_elem_of_singleton in He. by subst.
  - rewrite lookup_insert_ne by done. intros Hk.
    destruct (Hwf k inc Hk) as (? & ? & ? & ?).
    repeat split; try done; lia.
Qed.

Lemma add_event_wf st id ev :
  TimelineEvent.incident_id ev = id →
  store_wf st → store_wf (snd (add_event st id ev)).
Proof.
  intros Hev [Hn Hwf]. unfold add_event.
  destruct (_incidents st !! id) as [inc0|] eqn:Hid; [|done].
  split; simpl; [done|].
  intros k inc. destruct (decide (id = k)) as [<-|Hne].
  - rewrite lookup_insert_eq. intros [= <-]. simpl.
    destruct (Hwf id inc0 Hid) as (? & ? & (e & rest & Ht & ?) & Hall).
    split; [done|]. split; [done|]. split.
    + exists e, (rest ++ [ev]). by rewrite Ht.
    + intros e' He'. apply elem_of_app in He' as [He'|He'].
      * by apply Hall.
      * apply list_elem_of_singleton in He'. by subst.
  - rewrite lookup_insert_ne by done. apply Hwf.
Qed.

Lemma update_status_wf st f id s :
  store_wf st → store_wf (snd (update_status st f id s)).
Proof.
  intros [Hn Hwf]. unfold update_status.
  destruct (_incidents st !! id) as [inc0|] eqn:Hid; [|done].
  split; simpl; [done|].
  intros k inc. destruct (decide (id = k)) as [<-|Hne].
  - rewrite lookup_insert_eq. intros [= <-]. simpl.
    destruct (Hwf id inc0 Hid) as (? & ? & (e & rest & Ht & ?) & Hall).
    split; [done|]. split; [done|]. split.
    + eexists e, _. by rewrite Ht.
    + intros e' He'. apply elem_of_app in He' as [He'|He'].
      * by apply Hall.
      * apply list_elem_of_singleton in He'. by subst.
  - rewrite lookup_insert_ne by done. apply Hwf.
Qed.

Lemma store_evolves_wf st st' :
  store_wf st → store_evolves st st' → store_wf st'.
Proof.
  intros Hwf H. induction H.
  - done.
  - by apply create_incident_wf.
  - by apply add_event_wf.
  - by apply update_status_wf.
Qed.

Lemma new_store_wf : store_wf new_store.
Proof.
  split; [done|]. intros k inc. simpl. rewrite lookup_empty. done.
Qed.

(** What stays of an incident when the store evolves. *)
Lemma store_evolves_incident st st' k inc :
  store_wf st → store_evolves st st' →
  _incidents st !! k = Some inc →
  ∃ inc', _incidents st' !! k = Some inc'
          ∧ Incident.timeline inc `prefix_of` Incident.timeline inc'
          ∧ Incident.id inc' = Incident.id inc
          ∧ Incident.title inc' = Incident.title inc
          ∧ Incident.severity inc' = Incident.severity inc
          ∧ Incident.created_at inc' = Incident.created_at inc.
Proof.
  intros Hwf H Hk. induction H as [|st' created f title sev H IH
                                    |st' id ev Hev H IH|st' f id s H IH].
  - by exists inc.
  - destruct IH as (inc' & Hk' & Hrest).
    pose proof (store_evolves_wf _ _ Hwf H) as [_ Hwf'].
    destruct (Hwf' k inc' Hk') as (_ & Hlt & _).
    exists inc'. split; [|done]. simpl.
    rewrite lookup_insert_ne by lia. done.
  - destruct IH as (inc' & Hk' & Hpre & Hrest). unfold add_event.
    destruct (_incidents st' !! id) as [inc0|] eqn:Hid; [|by exists inc'].
    simpl. destruct (decide (id = k)) as [->|Hne].
    + rewrite lookup_insert_eq. eexists. split; [done|].
      assert (inc0 = inc') as -> by congruence. simpl.
      split; [|done]. by apply prefix_app_r.
    + rewrite lookup_insert_ne by done. by exists inc'.
  - destruct IH as (inc' & Hk' & Hpre & Hrest). unfold update_status.
    destruct (_incidents st' !! id) as [inc0|] eqn:Hid; [|by exists inc'].
    simpl. destruct (decide (id = k)) as [->|Hne].
    + rewrite lookup_insert_eq. eexists. split; [done|].
      assert (inc0 = inc') as -> by congruence. simpl.
      split; [|done]. by apply prefix_app_r.
    + rewrite lookup_insert_ne by done. by exists inc'.
Qed.

Lemma run_store_wf schedule : store_wf (store (run schedule initial_world)).
Proof.
  eapply store_evolves_wf;
    [apply new_store_wf | exact (run_store_evolves schedule initial_world)].
Qed.

(** X1. In every state the program reaches, each incident sits in the
    store under its own identifier, the identifiers in use are at least 1
    and below [_next_id], each timeline starts with a [system] event and
    holds only events made for its incident; so the identifier
    [create_incident] hands out next is not in use. *)
Theorem reachable_store_wf schedule :
  store_wf (store (run schedule initial_world))
  ∧ get_incident (store (run schedule initial_world))
      (_next_id (store (run schedule initial_world))) = None.
Proof.
  pose proof (run_store_wf schedule) as Hwf.
  split; [done|].
  destruct (get_incident _ _) as [inc|] eqn:Hget; [|done].
  destruct Hwf as [_ Hwf]. destruct (Hwf _ _ Hget) as (_ & ? & _). lia.
Qed.

(** X2. Timelines only grow at the end: whatever runs next, the timeline an
    incident has now is a prefix of the one it has afterwards, and the
    incident keeps its identifier, title, severity and creation time. *)
Theorem timelines_append_only schedule later id :
  let w := run schedule initial_world in
  timeline_of (store w) id `prefix_of` timeline_of (store (run later w)) id
  ∧ ∀ inc, get_incident (store w) id = Some inc →
      ∃ inc', get_incident (store (run later w)) id = Some inc'
              ∧ Incident.id inc' = Incident.id inc
              ∧ Incident.title inc' = Incident.title inc
              ∧ Incident.severity inc' = Incident.severity inc
              ∧ Incident.created_at inc' = Incident.created_at inc.
Proof.
  cbv zeta. set (w := run schedule initial_world).
  assert (store_wf (store w)) as Hwf by apply run_store_wf.
  pose proof (run_store_evolves later w) as Hev.
  split.
  - unfold timeline_of, get_incident.
    destruct (_incidents (store w) !! id) as [inc|] eqn:Hid;
      [|apply prefix_nil].
    destruct (store_evolves_incident _ _ _ _ Hwf Hev Hid)
      as (inc' & -> & Hpre & _). done.
  - intros inc Hid.
    destruct (store_evolves_incident _ _ _ _ Hwf Hev Hid)
      as (inc' & Hid' & _ & Hrest). by exists inc'.
Qed.

End StoreEvolution.

(** ** The per-incident lock and the order of enrichment events *)

Section Locks.
Implicit Types (w : World) (job : HumanUpdateJob.t) (st : IncidentStore).

Lemma pairing_snoc tl e : pairing (tl ++ [e]) = pairing_step (pairing tl) e.
Proof. unfold pairing. by rewrite foldl_app. Qed.

Lemma pairing_step_quiet state e :
  TimelineEvent.type e ≠ ai_tag → TimelineEvent.type e ≠ ai_summary →
  pairing_step state e = state.
Proof.
  intros Ht Hs. destruct state as [[src|]|]; simpl; [| |done];
    by destruct (TimelineEvent.type e).
Qed.

Lemma timeline_of_add_event_ne st id id' ev :
  id ≠ id' → timeline_of (snd (add_event st id ev)) id' = timeline_of st id'.
Proof.
  intros Hne. unfold add_event, timeline_of, get_incident.
  destruct (_incidents st !! id); [|done]. simpl.
  by rewrite lookup_insert_ne.
Qed.

Lemma timeline_of_add_event_unknown st id ev :
  get_incident st id = None →
  ∀ id', timeline_of (snd (add_event st id ev)) id' = timeline_of st id'.
Proof. intros H id'. unfold add_event. unfold get_incident in H. by rewrite H. Qed.

Lemma pairing_add_quiet st id ev id' :
  TimelineEvent.type ev ≠ ai_tag → TimelineEvent.type ev ≠ ai_summary →
  pairing (timeline_of (snd (add_event st id ev)) id')
  = pairing (timeline_of st id').
Proof.
  intros Ht Hs. destruct (decide (id = id')) as [<-|Hne].
  - destruct (get_incident st id) as [inc|] eqn:Hget.
    + rewrite (timeline_of_add_event _ _ _ _ Hget), pairing_snoc.
      rewrite pairing_step_quiet by done.
      unfold timeline_of. by rewrite Hget.
    + by rewrite timeline_of_add_event_unknown.
  - by rewrite timeline_of_add_event_ne.
Qed.

Lemma pairing_update_status st f id s id' :
  pairing (timeline_of (snd (update_status st f id s)) id')
  = pairing (timeline_of st id').
Proof.
  unfold update_status, timeline_of, get_incident.
  destruct (_incidents st !! id) as [inc|] eqn:Hid; [|done]. simpl.
  destruct (decide (id = id')) as [<-|Hne].
  - rewrite lookup_insert_eq, Hid. simpl. rewrite pairing_snoc.
    by rewrite pairing_step_quiet.
  - by rewrite lookup_insert_ne.
Qed.

Lemma pairing_create_incident st created f title sev id' :
  store_wf st →
  pairing (timeline_of (snd (create_incident st created f title sev)) id')
  = pairing (timeline_of st id').
Proof.
  intros [_ Hwf]. unfold timeline_of, get_incident. simpl.
  destruct (decide (_next_id st = id')) as [<-|Hne].
  - rewrite lookup_insert_eq.
    destruct (_incidents st !! _next_id st) as [inc|] eqn:Hid; [|done].
    destruct (Hwf _ _ Hid) as (_ & ? & _). lia.
  - by rewrite lookup_insert_ne.
Qed.

Lemma lock_held_insert w id l id' :
  lock_held (set_locks w (<[id := l]> (lock_manager w))) id'
  = if decide (id = id') then locked l else lock_held w id'.
Proof.
  unfold lock_held, get_lock. simpl. rewrite lookup_insert.
  by case_decide.
Qed.

Lemma lock_held_release w id id' :
  lock_held (set_locks w (release (lock_manager w) id)) id'
  = if decide (id = id') then false else lock_held w id'.
Proof. unfold release. by rewrite lock_held_insert. Qed.

Lemma lock_held_set_worker w k s id :
  lock_held (set_worker w k s) id = lock_held w id.
Proof. reflexivity. Qed.

(** The three ways a block can move the lock picture. *)
Lemma lock_inv_same w w' :
  (∀ k job, workers w' !! k = Some (AtSleep job)
            ↔ workers w !! k = Some (AtSleep job)) →
  (∀ id, lock_held w' id = lock_held w id) →
  (∀ id, pairing_of w' id = pairing_of w id) →
  lock_inv w → lock_inv w'.
Proof.
  intros Hw Hl Hp (L1 & L2 & L3 & L4). repeat split.
  - rewrite Hl. apply Hw in H. by apply (L1 k).
  - rewrite Hp. apply Hw in H. by apply (L1 k).
  - intros k k' job job' H H'. apply Hw in H, H'. by apply L2.
  - intros id H. rewrite Hl in H. destruct (L3 id H) as (k & job & Hk & ?).
    exists k, job. by rewrite Hw.
  - intros id H. rewrite Hl in H. rewrite Hp. by apply L4.
Qed.

Lemma lock_inv_acquire w w' k job :
  lock_inv w →
  lock_held w (HumanUpdateJob.incident_id job) = false →
  (∀ job', workers w !! k ≠ Some (AtSleep job')) →
  workers w' = <[k := AtSleep job]> (workers w) →
  (∀ id, lock_held w' id
         = if decide (HumanUpdateJob.incident_id job = id) then true
           else lock_held w id) →
  (∀ id, pairing_of w' id
         = if decide (HumanUpdateJob.incident_id job = id)
           then Some (Some (HumanUpdateJob.human_event_id job))
           else pairing_of w id) →
  lock_inv w'.
Proof.
  intros (L1 & L2 & L3 & L4) Hfree Hnot Hw Hl Hp.
  assert (∀ k' job', workers w !! k' = Some (AtSleep job') →
            HumanUpdateJob.incident_id job
            ≠ HumanUpdateJob.incident_id job') as Hother.
  { intros k' job' Hk' Heq. destruct (L1 _ _ Hk') as [Hheld _].
    rewrite <- Heq in Hheld. congruence. }
  assert (∀ k' job', workers w' !! k' = Some (AtSleep job') →
            (k' = k ∧ job' = job)
            ∨ (k' ≠ k ∧ workers w !! k' = Some (AtSleep job'))) as Hcases.
  { intros k' job'. rewrite Hw, lookup_insert. case_decide.
    - intros [= <-]. by left.
    - intros H'. right. split; [congruence | done]. }
  repeat split.
  - rewrite Hl. destruct (Hcases _ _ H) as [[-> ->]|[_ Hold]].
    + by rewrite decide_True.
    + rewrite decide_False by by eapply Hother. by apply (L1 k0).
  - rewrite Hp. destruct (Hcases _ _ H) as [[-> ->]|[_ Hold]].
    + by rewrite decide_True.
    + rewrite decide_False by by eapply Hother. by apply (L1 k0).
  - intros k1 k2 job1 job2 H1 H2 Heq.
    destruct (Hcases _ _ H1) as [[-> ->]|[? Hold1]],
             (Hcases _ _ H2) as [[-> ->]|[? Hold2]]; try done.
    + by destruct (Hother _ _ Hold2).
    + symmetry in Heq. by destruct (Hother _ _ Hold1).
    + by eapply L2.
  - intros id. rewrite Hl. case_decide as Hid.
    + intros _. exists k, job. split; [|done].
      by rewrite Hw, lookup_insert_eq.
    + intros Hheld. destruct (L3 id Hheld) as (k' & job' & Hk' & Hj').
      exists k', job'. split; [|done]. rewrite Hw, lookup_insert.
      case_decide as Hk; [|done]. subst k'. by destruct (Hnot job').
  - intros id. rewrite Hl, Hp. case_decide; [done|]. apply L4.
Qed.

Lemma lock_inv_release w w' k job s :
  lock_inv w →
  workers w !! k = Some (AtSleep job) →
  (∀ job', s ≠ AtSleep job') →
  workers w' = <[k := s]> (workers w) →
  (∀ id, lock_held w' id
         = if decide (HumanUpdateJob.incident_id job = id) then false
           else lock_held w id) →
  (∀ id, pairing_of w' id
         = if decide (HumanUpdateJob.incident_id job = id) then Some None
           else pairing_of w id) →
  lock_inv w'.
Proof.
  intros (L1 & L2 & L3 & L4) Hk Hs Hw Hl Hp.
  assert (∀ k' job', workers w' !! k' = Some (AtSleep job') →
            k' ≠ k ∧ workers w !! k' = Some (AtSleep job')
            ∧ HumanUpdateJob.incident_id job
              ≠ HumanUpdateJob.incident_id job') as Hcases.
  { intros k' job'. rewrite Hw, lookup_insert. case_decide as Hkk.
    - intros [= ->]. by destruct (Hs job').
    - intros H'. split; [congruence|]. split; [done|].
      intros Heq. apply Hkk. by eapply L2. }
  repeat split.
  - destruct (Hcases _ _ H) as (_ & Hold & Hne).
    rewrite Hl, decide_False by done. by apply (L1 k0).
  - destruct (Hcases _ _ H) as (_ & Hold & Hne).
    rewrite Hp, decide_False by done. by apply (L1 k0).
  - intros k1 k2 job1 job2 H1 H2 Heq.
    destruct (Hcases _ _ H1) as (_ & Hold1 & _),
             (Hcases _ _ H2) as (_ & Hold2 & _). by eapply L2.
  - intros id. rewrite Hl. case_decide as Hid; [done|].
    intros Hheld. destruct (L3 id Hheld) as (k' & job' & Hk' & Hj').
    exists k', job'. split; [|done]. rewrite Hw, lookup_insert.
    case_decide as Hkk; [|done]. subst k'.
    rewrite Hk in Hk'. injection Hk' as <-. done.
  - intros id. rewrite Hl, Hp. case_decide; [done|]. apply L4.
Qed.

Lemma workers_ws_broadcast w i m : workers (ws_broadcast w i m) = workers w.
Proof. unfold ws_broadcast. by destruct (broadcast _ _ _ _). Qed.

Lemma lock_manager_ws_broadcast w i m :
  lock_manager (ws_broadcast w i m) = lock_manager w.
Proof. unfold ws_broadcast. by destruct (broadcast _ _ _ _). Qed.

Lemma processor_queue_ws_broadcast w i m :
  processor_queue (ws_broadcast w i m) = processor_queue w.
Proof. unfold ws_broadcast. by destruct (broadcast _ _ _ _). Qed.

Lemma sessions_ws_broadcast w i m : sessions (ws_broadcast w i m) = sessions w.
Proof. unfold ws_broadcast. by destruct (broadcast _ _ _ _). Qed.

Lemma pairing_ai_tag f job :
  pairing_step (Some None) (ai_tag_event f job)
  = Some (Some (HumanUpdateJob.human_event_id job)).
Proof. reflexivity. Qed.

Lemma pairing_ai_summary f job :
  pairing_step (Some (Some (HumanUpdateJob.human_event_id job)))
    (ai_summary_event f job)
  = Some None.
Proof.
  unfold pairing_step, source_of. simpl. by rewrite String.eqb_refl.
Qed.

(** The blocks of the handlers leave workers and locks alone, and what they
    append is no enrichment event. *)
Lemma handler_step_quiet a w :
  (∀ k f, a ≠ Worker k f) → store_wf (store w) →
  workers (step a w) = workers w
  ∧ lock_manager (step a w) = lock_manager w
  ∧ ∀ id, pairing_of (step a w) id = pairing_of w id.
Proof.
  intros Ha Hwf. unfold pairing_of. destruct a; simpl.
  - unfold http_create_incident. case_match; [|done]. simpl.
    repeat split. intros id. by apply pairing_create_incident.
  - unfold update_incident_status.
    pose proof (pairing_update_status (store w) f_change incident_id
                  new_status) as Hp.
    destruct (update_status _ _ _ _) as [[inc|?] st]; [|done].
    by rewrite status_str_is_resolved_never.
  - unfold incident_room_ws_open, send_or_end, end_session.
    by repeat case_match.
  - unfold incident_room_ws_receive, send_or_end, end_session.
    repeat case_match; simplify_eq; try done.
    simpl. rewrite workers_ws_broadcast, lock_manager_ws_broadcast,
      store_ws_broadcast. simpl. repeat split. intros id.
    match goal with
    | Heq : add_event ?st ?i ?ev = _ |- _ =>
        pose proof (pairing_add_quiet st i ev id) as Hp;
        rewrite Heq in Hp; by apply Hp
    end.
  - unfold incident_room_ws_closed, end_session. by case_match.
  - done.
  - by destruct (Ha k f).
Qed.

Lemma run_locked_unknown k f job w :
  get_incident (store w) (HumanUpdateJob.incident_id job) = None →
  run_locked k f job w
  = set_worker
      (set_locks w (release (lock_manager w) (HumanUpdateJob.incident_id job)))
      k AtQueueGet.
Proof.
  intros H. unfold run_locked.
  by rewrite (proj1 (worker_stage_a_unknown f job w H)).
Qed.

Lemma run_locked_known k f job w inc :
  get_incident (store w) (HumanUpdateJob.incident_id job) = Some inc →
  run_locked k f job w
  = set_worker
      (ws_broadcast
         (set_store w
            (snd (add_event (store w) (HumanUpdateJob.incident_id job)
                    (ai_tag_event f job))))
         (HumanUpdateJob.incident_id job)
         (MsgTimelineEvent ModeJson (ai_tag_event f job)))
      k (AtSleep job).
Proof.
  intros H. unfold run_locked. by rewrite (worker_stage_a_known _ _ _ _ H).
Qed.

(** A worker that has just taken the free lock of its job's incident. *)
Lemma run_locked_lock_inv k f job w0 w :
  lock_inv w0 →
  lock_held w0 (HumanUpdateJob.incident_id job) = false →
  (∀ job', workers w0 !! k ≠ Some (AtSleep job')) →
  workers w = workers w0 →
  store w = store w0 →
  (∀ id, lock_held w id
         = if decide (HumanUpdateJob.incident_id job = id) then true
           else lock_held w0 id) →
  lock_inv (run_locked k f job w).
Proof.
  intros Hinv Hfree Hnot Hw Hst Hl.
  destruct (get_incident (store w) (HumanUpdateJob.incident_id job))
    as [inc|] eqn:Hget.
  - rewrite (run_locked_known _ _ _ _ _ Hget).
    apply (lock_inv_acquire w0 _ k job); try done.
    + simpl. by rewrite workers_ws_broadcast, <- Hw.
    + intros id. unfold lock_held. simpl.
      rewrite lock_manager_ws_broadcast. apply Hl.
    + intros id. unfold pairing_of. simpl. rewrite store_ws_broadcast. simpl.
      case_decide as Hid.
      * subst id. rewrite (timeline_of_add_event _ _ _ _ Hget), pairing_snoc.
        destruct Hinv as (_ & _ & _ & L4). specialize (L4 _ Hfree).
        unfold pairing_of, timeline_of in L4. rewrite <- Hst, Hget in L4.
        by rewrite L4, pairing_ai_tag.
      * rewrite timeline_of_add_event_ne by done. by rewrite Hst.
  - rewrite (run_locked_unknown _ _ _ _ Hget).
    apply (lock_inv_same w0); [| | |done].
    + intros k' job'. simpl. rewrite Hw, lookup_insert. case_decide.
      * subst k'. split; [done | intros H'; by destruct (Hnot job')].
      * done.
    + intros id. rewrite lock_held_set_worker, lock_held_release, Hl.
      case_decide; [by subst id | done].
    + intros id. unfold pairing_of. simpl. by rewrite Hst.
Qed.

Lemma worker_step_lock_inv k f w : lock_inv w → lock_inv (worker_step k f w).
Proof.
  intros Hinv. unfold worker_step.
  destruct (workers w !! k) as [[|job|job]|] eqn:Hk; [| | |done].
  - destruct (processor_queue w) as [|job rest] eqn:Hq; [done|].
    cbv zeta.
    assert (∀ job', workers w !! k ≠ Some (AtSleep job')) as Hnot
      by (intros job'; congruence).
    destruct (locked (get_lock (lock_manager (set_queue w rest))
                        (HumanUpdateJob.incident_id job))) eqn:Hlocked;
      [|destruct (waiters (get_lock (lock_manager (set_queue w rest))
                             (HumanUpdateJob.incident_id job))) eqn:Hwait].
    + apply (lock_inv_same w); [| | |done].
      * intros k' job'. simpl. rewrite lookup_insert. case_decide; [|done].
        subst k'. split; [done | congruence].
      * intros id. unfold lock_held, get_lock. simpl. rewrite lookup_insert.
        case_decide; [|done]. subst id. simpl in Hlocked. simpl.
        symmetry. exact Hlocked.
      * done.
    + apply (run_locked_lock_inv k f job w); try done.
      intros id. apply (lock_held_insert (set_queue w rest)).
    + apply (lock_inv_same w); [| | |done].
      * intros k' job'. simpl. rewrite lookup_insert. case_decide; [|done].
        subst k'. split; [done | congruence].
      * intros id. unfold lock_held, get_lock. simpl. rewrite lookup_insert.
        case_decide; [|done]. subst id. simpl in Hlocked. simpl.
        symmetry. exact Hlocked.
      * done.
  - cbv zeta.
    assert (∀ job', workers w !! k ≠ Some (AtSleep job')) as Hnot
      by (intros job'; congruence).
    destruct (locked (get_lock (lock_manager w)
                        (HumanUpdateJob.incident_id job))) eqn:Hlocked;
      [done|].
    destruct (waiters (get_lock (lock_manager w)
                         (HumanUpdateJob.incident_id job)))
      as [|k' rest] eqn:Hwait; [done|].
    case_match; [|done].
    apply (run_locked_lock_inv k f job w); try done.
    intros id. apply lock_held_insert.
  - destruct Hinv as (L1 & L2 & L3 & L4).
    destruct (L1 _ _ Hk) as [Hheld Hpair].
    assert (∃ inc, get_incident (store w) (HumanUpdateJob.incident_id job)
                   = Some inc) as [inc Hget].
    { unfold pairing_of, timeline_of in Hpair.
      destruct (get_incident _ _) as [inc|]; [by exists inc | done]. }
    apply (lock_inv_release w _ k job AtQueueGet); try done.
    + simpl. by rewrite (worker_stage_b_known _ _ _ _ Hget),
        workers_ws_broadcast.
    + intros id. rewrite lock_held_set_worker, lock_held_release.
      case_decide; [done|].
      unfold lock_held. by rewrite (worker_stage_b_known _ _ _ _ Hget),
        lock_manager_ws_broadcast.
    + intros id. unfold pairing_of. simpl. rewrite worker_stage_b_store.
      case_decide as Hid.
      * subst id. rewrite (timeline_of_add_event _ _ _ _ Hget), pairing_snoc.
        unfold pairing_of, timeline_of in Hpair. rewrite Hget in Hpair.
        by rewrite Hpair, pairing_ai_summary.
      * by rewrite timeline_of_add_event_ne.
Qed.

Lemma step_lock_inv a w :
  store_wf (store w) → lock_inv w → lock_inv (step a w).
Proof.
  intros Hwf Hinv.
  assert ((∃ k f, a = Worker k f) ∨ (∀ k f, a ≠ Worker k f)) as [Ha|Ha].
  { destruct a; try (right; by intros ??); left; by eexists _, _. }
  - destruct Ha as (k & f & ->). by apply worker_step_lock_inv.
  - destruct (handler_step_quiet a w Ha Hwf) as (Hw & Hl & Hp).
    apply (lock_inv_same w); [| | |done].
    + intros. by rewrite Hw.
    + intros. unfold lock_held. by rewrite Hl.
    + done.
Qed.

Lemma initial_workers k s :
  workers initial_world !! k = Some s → s = AtQueueGet.
Proof.
  simpl. intros H. apply lookup_insert_Some in H as [[_ <-]|[_ H]]; [done|].
  by apply lookup_singleton_Some in H as [_ <-].
Qed.

Lemma initial_lock_inv : lock_inv initial_world.
Proof.
  repeat split.
  - by apply initial_workers in H.
  - by apply initial_workers in H.
  - intros k k' job job' H. by apply initial_workers in H.
  - intros id H. unfold lock_held, get_lock in H. simpl in H.
    by rewrite lookup_empty in H.
Qed.

Lemma run_lock_inv schedule w :
  store_wf (store w) → lock_inv w → lock_inv (run schedule w).
Proof.
  revert w. induction schedule as [|a schedule IH]; intros w Hwf Hinv; simpl.
  - done.
  - apply IH; [|by apply step_lock_inv].
    eapply store_evolves_wf; [done | apply step_store_evolves].
Qed.

Lemma worker_step_printed k f w :
  lock_inv w → printed (worker_step k f w) = printed w.
Proof.
  intros Hinv.
  assert (∀ k' job w', printed (run_locked k' f job w') = printed w') as Hl.
  { intros k' job w'.
    destruct (get_incident (store w') (HumanUpdateJob.incident_id job))
      as [inc|] eqn:Hget.
    - rewrite (run_locked_known _ _ _ _ _ Hget). simpl.
      by rewrite printed_ws_broadcast.
    - by rewrite (run_locked_unknown _ _ _ _ Hget). }
  unfold worker_step.
  destruct (workers w !! k) as [[|job|job]|] eqn:Hk; [| | |done].
  - repeat case_match; try done; by rewrite Hl.
  - repeat case_match; try done; by rewrite Hl.
  - destruct Hinv as (L1 & _). destruct (L1 _ _ Hk) as [_ Hpair].
    unfold pairing_of, timeline_of in Hpair.
    destruct (get_incident (store w) (HumanUpdateJob.incident_id job))
      as [inc|] eqn:Hget; [|done].
    simpl. rewrite (worker_stage_b_known _ _ _ _ Hget).
    by rewrite printed_ws_broadcast.
Qed.

Lemma step_printed a w : lock_inv w → printed (step a w) = printed w.
Proof.
  intros Hinv. destruct a; simpl.
  - unfold http_create_incident. by case_match.
  - unfold update_incident_status.
    destruct (update_status _ _ _ _) as [[inc|?] st]; [|done].
    by rewrite status_str_is_resolved_never.
  - unfold incident_room_ws_open, send_or_end, end_session.
    by repeat case_match.
  - unfold incident_room_ws_receive, send_or_end, end_session.
    repeat case_match; try done. simpl. by rewrite printed_ws_broadcast.
  - unfold incident_room_ws_closed, end_session. by case_match.
  - done.
  - by apply worker_step_printed.
Qed.

Lemma run_printed schedule w :
  store_wf (store w) → lock_inv w → printed (run schedule w) = printed w.
Proof.
  revert w. induction schedule as [|a schedule IH]; intros w Hwf Hinv; simpl.
  - done.
  - rewrite IH; [by apply step_printed | | by apply step_lock_inv].
    eapply store_evolves_wf; [done | apply step_store_evolves].
Qed.

(** What [pairing] accepts, read as a list of pairs. *)
Lemma pairing_well_paired tl state result :
  foldl pairing_step (Some state) tl = Some result →
  match state with
  | None => well_paired (enrichment tl)
  | Some src =>
      enrichment tl = []
      ∨ ∃ s rest, enrichment tl = s :: rest
                  ∧ TimelineEvent.type s = ai_summary
                  ∧ source_of s = Some src
                  ∧ well_paired rest
  end.
Proof.
  assert (∀ l r, foldl pairing_step None l = Some r → False) as Hnone.
  { induction l; simpl; done. }
  revert state. induction tl as [|e tl IH]; intros state Hfold.
  - destruct state; [by left | constructor].
  - revert Hfold. unfold enrichment. simpl. fold (enrichment tl).
    destruct (TimelineEvent.type e) eqn:Hty;
      try (intros Hfold; apply IH; destruct state; exact Hfold).
    + (* ai_tag *)
      destruct state as [src|]; [intros Hfold; by destruct (Hnone _ _ Hfold)|].
      destruct (source_of e) as [src|] eqn:Hsrc;
        [|intros Hfold; by destruct (Hnone _ _ Hfold)].
      intros Hfold.
      destruct (IH _ Hfold) as [->|(s & rest & -> & Hs & Hsrc' & Hrest)].
      * by constructor.
      * apply paired_cons;
          [done | done | by rewrite Hsrc | congruence | done].
    + (* ai_summary *)
      destruct state as [src|]; [|intros Hfold; by destruct (Hnone _ _ Hfold)].
      destruct (source_of e) as [src'|] eqn:Hsrc;
        [|intros Hfold; by destruct (Hnone _ _ Hfold)].
      destruct (String.eqb src' src) eqn:Heq;
        [|intros Hfold; by destruct (Hnone _ _ Hfold)].
      apply String.eqb_eq in Heq as ->. intros Hfold.
      right. exists e, (enrichment tl). repeat split; try done.
      apply (IH None). exact Hfold.
Qed.

(** X3. In every state the program reaches, the enrichment events of every
    timeline come in whole pairs, an [ai_tag] directly followed (among the
    enrichment events) by the [ai_summary] of the same source event, with
    at most one [ai_tag] left at the end; and a tag is left at the end only
    while the incident's lock is held.  Two jobs of one incident never
    interleave their events, however the blocks are scheduled. *)
Theorem enrichment_pairs_never_interleave schedule id :
  let w := run schedule initial_world in
  well_paired (enrichment (timeline_of (store w) id))
  ∧ ∃ open, pairing (timeline_of (store w) id) = Some open
            ∧ (lock_held w id = false → open = None).
Proof.
  cbv zeta. set (w := run schedule initial_world).
  assert (lock_inv w) as (L1 & _ & L3 & L4).
  { apply run_lock_inv; [apply new_store_wf | apply initial_lock_inv]. }
  assert (∃ open, pairing (timeline_of (store w) id) = Some open
                  ∧ (lock_held w id = false → open = None))
    as (open & Hopen & Himp).
  { destruct (lock_held w id) eqn:Hheld.
    - destruct (L3 _ Hheld) as (k & job & Hk & <-).
      destruct (L1 _ _ Hk) as [_ Hp]. eexists. split; [exact Hp | done].
    - exists None. split; [by apply L4 | done]. }
  split; [|by exists open].
  by apply (pairing_well_paired _ None open).
Qed.

(** X4. In every state the program reaches, at most one worker is asleep
    between its two stages on any one incident, and a worker asleep there
    holds the lock of its job's incident. *)
Theorem lock_mutual_exclusion schedule :
  let w := run schedule initial_world in
  (∀ k k' job job',
     workers w !! k = Some (AtSleep job) →
     workers w !! k' = Some (AtSleep job') →
     HumanUpdateJob.incident_id job = HumanUpdateJob.incident_id job' →
     k = k')
  ∧ (∀ k job, workers w !! k = Some (AtSleep job) →
       lock_held w (HumanUpdateJob.incident_id job) = true).
Proof.
  cbv zeta. set (w := run schedule initial_world).
  assert (lock_inv w) as (L1 & L2 & _ & _).
  { apply run_lock_inv; [apply new_store_wf | apply initial_lock_inv]. }
  split; [done|]. intros k job Hk. by apply (L1 k).
Qed.

(** X5. No schedule makes a worker reach its [except] clause through the
    store: the incident a worker has fetched is still there when Stage A
    appends, and it is still there after the sleep when Stage B appends, so
    nothing is ever printed. *)
Theorem worker_never_prints schedule :
  printed (run schedule initial_world) = [].
Proof.
  by rewrite run_printed; [| apply new_store_wf | apply initial_lock_inv].
Qed.

End Locks.

(** ** Jobs and the events they come from *)

Section Jobs.
Implicit Types (w : World) (job : HumanUpdateJob.t) (st : IncidentStore).

Lemma job_grounded_evolves st st' job :
  store_wf st → store_evolves st st' →
  job_grounded st job → job_grounded st' job.
Proof.
  intros Hwf Hev (e & He & Hrest). exists e. split; [|done].
  unfold timeline_of, get_incident in *.
  destruct (_incidents st !! HumanUpdateJob.incident_id job) as [inc|] eqn:Hid.
  - destruct (store_evolves_incident _ _ _ _ Hwf Hev Hid)
      as (inc' & -> & [rest ->] & _).
    apply elem_of_app. by left.
  - by apply elem_of_nil in He.
Qed.

Lemma run_locked_in_flight k f job0 w job :
  job_in_flight (run_locked k f job0 w) job →
  job = job0
  ∨ job ∈ processor_queue w
  ∨ ∃ k', k' ≠ k ∧ (workers w !! k' = Some (AtLockAcquire job)
                     ∨ workers w !! k' = Some (AtSleep job)).
Proof.
  assert (∃ s, (s = AtQueueGet ∨ s = AtSleep job0)
               ∧ workers (run_locked k f job0 w) = <[k := s]> (workers w)
               ∧ processor_queue (run_locked k f job0 w) = processor_queue w)
    as (s & Hs & Hw & Hq).
  { destruct (get_incident (store w) (HumanUpdateJob.incident_id job0))
      as [inc|] eqn:Hget.
    - exists (AtSleep job0). rewrite (run_locked_known _ _ _ _ _ Hget). simpl.
      by rewrite workers_ws_broadcast, processor_queue_ws_broadcast; auto.
    - exists AtQueueGet. rewrite (run_locked_unknown _ _ _ _ Hget). auto. }
  unfold job_in_flight. rewrite Hw, Hq. intros [Hin|[k' Hk']]; [auto|].
  rewrite lookup_insert in Hk'. case_decide as Hkk.
  - left. destruct Hs as [-> | ->], Hk' as [Hk'|Hk']; congruence.
  - right. right. exists k'. split; [congruence | done].
Qed.

(** A worker's block puts no job in flight that was not in flight. *)
Lemma worker_step_in_flight k f w job :
  job_in_flight (worker_step k f w) job → job_in_flight w job.
Proof.
  unfold worker_step.
  destruct (workers w !! k) as [[|job0|job0]|] eqn:Hk; [| | |done].
  - destruct (processor_queue w) as [|job0 rest] eqn:Hq; [done|].
    cbv zeta.
    assert (∀ w', processor_queue w' = rest → workers w' = workers w →
              job_in_flight (run_locked k f job0 w') job →
              job_in_flight w job) as Hrun.
    { intros w' Hq' Hw' H. apply run_locked_in_flight in H.
      rewrite Hq', Hw' in H. unfold job_in_flight. rewrite Hq.
      destruct H as [->|[H|(k' & _ & H)]].
      - left. apply list_elem_of_here.
      - left. by apply list_elem_of_further.
      - right. by exists k'. }
    assert (job_in_flight
              (set_worker
                 (set_locks (set_queue w rest)
                    (<[HumanUpdateJob.incident_id job0 :=
                         {| locked :=
                              locked (get_lock (lock_manager (set_queue w rest))
                                        (HumanUpdateJob.incident_id job0));
                            waiters :=
                              waiters
                                (get_lock (lock_manager (set_queue w rest))
                                   (HumanUpdateJob.incident_id job0))
                              ++ [k] |}]>
                       (lock_manager (set_queue w rest))))
                 k (AtLockAcquire job0)) job →
            job_in_flight w job) as Hwait.
    { unfold job_in_flight. simpl. rewrite Hq.
      intros [H|[k' H]].
      - left. by apply list_elem_of_further.
      - rewrite lookup_insert in H. case_decide as Hkk.
        + left. destruct H as [[= ->]|[=]]. apply list_elem_of_here.
        + right. by exists k'. }
    destruct (locked _) eqn:Hlocked; [exact Hwait|].
    destruct (waiters _) eqn:Hwaiters; [|exact Hwait].
    by apply Hrun.
  - cbv zeta. repeat case_match; try done.
    intros Hin. apply run_locked_in_flight in Hin. simpl in Hin.
    unfold job_in_flight.
    destruct Hin as [->|[Hin|(k' & _ & Hin)]];
      [|by left|right; by exists k'].
    right. exists k. by left.
  - unfold job_in_flight. simpl.
    destruct (get_incident (store w) (HumanUpdateJob.incident_id job0))
      as [inc|] eqn:Hget.
    + rewrite (worker_stage_b_known _ _ _ _ Hget).
      rewrite workers_ws_broadcast, processor_queue_ws_broadcast. simpl.
      intros [H|[k' H]]; [by left|].
      rewrite lookup_insert in H. case_decide; [by destruct H|].
      right. by exists k'.
    + unfold worker_stage_b. unfold get_incident in Hget.
      rewrite (add_event_unknown _ _ _ Hget). simpl.
      intros [H|[k' H]]; [by left|].
      rewrite lookup_insert in H. case_decide; [by destruct H|].
      right. by exists k'.
Qed.

Lemma step_in_flight a w job :
  store_wf (store w) →
  job_in_flight (step a w) job →
  job_in_flight w job ∨ job_grounded (store (step a w)) job.
Proof.
  intros Hwf. destruct a; simpl.
  - unfold http_create_incident. case_match; auto.
  - unfold update_incident_status.
    destruct (update_status _ _ _ _) as [[inc|?] st]; [|auto].
    rewrite status_str_is_resolved_never. auto.
  - unfold incident_room_ws_open, send_or_end, end_session.
    repeat case_match; auto.
  - unfold incident_room_ws_receive, send_or_end, end_session.
    destruct (sessions w !! c) as [incident_id|]; [|auto].
    case_match; [|auto].
    destruct (get_incident (store w) incident_id) as [inc|] eqn:Hget;
      [|repeat case_match; auto].
    rewrite status_str_is_resolved_never.
    unfold get_incident in Hget. rewrite (add_event_known _ _ _ _ Hget).
    unfold job_in_flight. simpl.
    rewrite processor_queue_ws_broadcast, workers_ws_broadcast,
      store_ws_broadcast. simpl.
    intros [Hin|Hin]; [|left; by right].
    apply elem_of_app in Hin as [Hin|Hin]; [left; by left|].
    apply list_elem_of_singleton in Hin as ->. right.
    exists (new_event f incident_id human_update [("message", VStr text)]).
    split; [|done]. simpl.
    unfold timeline_of, get_incident. simpl. rewrite lookup_insert_eq.
    simpl. apply elem_of_app. right. apply list_elem_of_here.
  - unfold incident_room_ws_closed, end_session. case_match; auto.
  - auto.
  - intros H. left. by apply worker_step_in_flight in H.
Qed.

Lemma run_in_flight_grounded schedule w :
  store_wf (store w) →
  (∀ job, job_in_flight w job → job_grounded (store w) job) →
  ∀ job, job_in_flight (run schedule w) job →
         job_grounded (store (run schedule w)) job.
Proof.
  revert w. induction schedule as [|a schedule IH]; intros w Hwf Hinv; simpl.
  - done.
  - apply IH.
    + eapply store_evolves_wf; [done | apply step_store_evolves].
    + intros job H. destruct (step_in_flight _ _ _ Hwf H) as [Hold|Hnew].
      * eapply job_grounded_evolves;
          [done | apply step_store_evolves | by apply Hinv].
      * done.
Qed.

Lemma initial_in_flight job : ¬ job_in_flight initial_world job.
Proof.
  intros [H|[k [H|H]]].
  - by apply elem_of_nil in H.
  - by apply initial_workers in H.
  - by apply initial_workers in H.
Qed.

(** X6. In every state the program reaches, every job in the queue or in
    the hands of a worker stands for a [human_update] event that is in the
    timeline of the job's incident, with the job's event identifier and
    message; so the incident exists and a worker that takes the job goes
    through Stage A: the not-found branch is never taken. *)
Theorem jobs_refer_to_stored_updates schedule job :
  job_in_flight (run schedule initial_world) job →
  job_grounded (store (run schedule initial_world)) job
  ∧ is_Some (get_incident (store (run schedule initial_world))
               (HumanUpdateJob.incident_id job))
  ∧ ∀ f, snd (worker_stage_a f job (run schedule initial_world)) = true.
Proof.
  intros H.
  assert (job_grounded (store (run schedule initial_world)) job) as Hg.
  { revert H. apply run_in_flight_grounded; [apply new_store_wf|].
    intros job' H'. by destruct (initial_in_flight job'). }
  split; [done|].
  assert (is_Some (get_incident (store (run schedule initial_world))
                     (HumanUpdateJob.incident_id job))) as [inc Hget].
  { destruct Hg as (e & He & _). unfold timeline_of in He.
    destruct (get_incident _ _); [done | by apply elem_of_nil in He]. }
  split; [by exists inc|].
  intros f. by rewrite (worker_stage_a_known _ _ _ _ Hget).
Qed.

Lemma jobs_refer_to_stored_updates_witness :
  is_Some (get_incident (store (run update_posted initial_world)) 1).
Proof.
  refine (proj1 (proj2 (jobs_refer_to_stored_updates update_posted
            {| HumanUpdateJob.incident_id := 1;
               HumanUpdateJob.human_event_id := "1";
               HumanUpdateJob.message := "db down" |} _))).
  left. vm_compute. apply list_elem_of_here.
Defined.

End Jobs.

(** ** Rooms, connections and incidents *)

Section RoomMembers.
Implicit Types (w : World) (rooms : gmap Z (gset Conn)) (c : Conn).

Lemma room_connect_elem rooms i c j c' :
  c' ∈ room (connect rooms i c) j
  ↔ c' ∈ room rooms j ∨ (j = i ∧ c' = c).
Proof.
  rewrite connect_insert. unfold room at 1.
  destruct (decide (i = j)) as [->|Hne].
  - rewrite lookup_insert_eq. simpl.
    rewrite elem_of_union, elem_of_singleton. intuition congruence.
  - rewrite lookup_insert_ne by done. fold (room rooms j).
    intuition congruence.
Qed.

Lemma room_disconnect_elem rooms i c j c' :
  c' ∈ room (disconnect rooms i c) j
  ↔ c' ∈ room rooms j ∧ ¬ (j = i ∧ c' = c).
Proof.
  destruct (decide (i = j)) as [->|Hne].
  - rewrite room_disconnect, elem_of_difference, elem_of_singleton.
    intuition congruence.
  - unfold disconnect, room at 1. destruct (rooms !! i) eqn:Hi.
    + case_decide; rewrite ?lookup_delete_ne, ?lookup_insert_ne by done;
        fold (room rooms j); intuition congruence.
    + fold (room rooms j). intuition congruence.
Qed.

Lemma room_broadcast_sub rooms n i m j c :
  c ∈ room (fst (broadcast rooms n i m)) j → c ∈ room rooms j.
Proof.
  destruct (decide (i = j)) as [->|Hne].
  - rewrite broadcast_room. tauto.
  - rewrite broadcast_spec. simpl. unfold room.
    destruct (List.filter _ _); [done | by rewrite prune_other].
Qed.

Lemma ws_broadcast_rooms_inv w i m : rooms_inv w → rooms_inv (ws_broadcast w i m).
Proof.
  intros [H1 H2]. split.
  - intros j c. rewrite sessions_ws_broadcast. intros Hc. apply H1.
    unfold ws_broadcast in Hc.
    pose proof (room_broadcast_sub (ws_manager w) (net w) i m j c) as Hsub.
    destruct (broadcast _ _ _ _). by apply Hsub.
  - intros c j. rewrite sessions_ws_broadcast, store_ws_broadcast. apply H2.
Qed.

Lemma end_session_rooms_inv c i w :
  sessions w !! c = Some i → rooms_inv w → rooms_inv (end_session c i w).
Proof.
  intros Hc [H1 H2]. split; simpl.
  - intros j c'. rewrite room_disconnect_elem. intros [Hin Hnot].
    specialize (H1 _ _ Hin).
    rewrite lookup_delete_ne; [done|]. intros <-. apply Hnot.
    split; [congruence | done].
  - intros c' j Hs. apply lookup_delete_Some in Hs as [_ Hs]. by eapply H2.
Qed.

Lemma send_or_end_rooms_inv c i m w :
  sessions w !! c = Some i → rooms_inv w → rooms_inv (send_or_end c i m w).
Proof.
  intros Hc Hinv. unfold send_or_end.
  destruct (send_json _ _ _) as [[?|?] ?]; [done|].
  by apply end_session_rooms_inv.
Qed.

(** The store part of the invariant survives whatever happens to the
    store. *)
Lemma rooms_inv_store w w' :
  ws_manager w' = ws_manager w → sessions w' = sessions w →
  (∀ i, is_Some (get_incident (store w) i) →
        is_Some (get_incident (store w') i)) →
  rooms_inv w → rooms_inv w'.
Proof.
  intros Hr Hs Hst [H1 H2]. split.
  - intros i c. rewrite Hr, Hs. apply H1.
  - intros c i. rewrite Hs. intros H. by apply Hst, (H2 c).
Qed.

Lemma worker_step_fields k f w :
  sessions (worker_step k f w) = sessions w
  ∧ ∀ j c, c ∈ room (ws_manager (worker_step k f w)) j →
           c ∈ room (ws_manager w) j.
Proof.
  assert (∀ w' i m,
            sessions (ws_broadcast w' i m) = sessions w'
            ∧ ∀ j c, c ∈ room (ws_manager (ws_broadcast w' i m)) j →
                     c ∈ room (ws_manager w') j) as Hb.
  { intros w' i m. split; [apply sessions_ws_broadcast|].
    intros j c. unfold ws_broadcast.
    pose proof (room_broadcast_sub (ws_manager w') (net w') i m j c) as Hsub.
    by destruct (broadcast _ _ _ _). }
  assert (∀ k' job w',
            sessions (run_locked k' f job w') = sessions w'
            ∧ ∀ j c, c ∈ room (ws_manager (run_locked k' f job w')) j →
                     c ∈ room (ws_manager w') j) as Hl.
  { intros k' job w'.
    destruct (get_incident (store w') (HumanUpdateJob.incident_id job))
      as [inc|] eqn:Hget.
    - rewrite (run_locked_known _ _ _ _ _ Hget). simpl.
      match goal with
      | |- context [ws_broadcast ?x ?i ?m] => exact (Hb x i m)
      end.
    - by rewrite (run_locked_unknown _ _ _ _ Hget). }
  unfold worker_step.
  destruct (workers w !! k) as [[|job|job]|] eqn:Hk; [| | |done].
  - repeat case_match; try done;
      match goal with
      | |- context [run_locked ?k' ?f' ?j ?x] => exact (Hl k' j x)
      end.
  - repeat case_match; try done;
      match goal with
      | |- context [run_locked ?k' ?f' ?j ?x] => exact (Hl k' j x)
      end.
  - simpl. unfold worker_stage_b.
    destruct (add_event _ _ _) as [[?|?] ?]; [|done].
    match goal with
    | |- context [ws_broadcast ?x ?i ?m] => exact (Hb x i m)
    end.
Qed.

Lemma step_rooms_inv a w : rooms_inv w → rooms_inv (step a w).
Proof.
  intros Hinv.
  assert (∀ i, is_Some (get_incident (store w) i) →
               is_Some (get_incident (store (step a w)) i)) as Hkeep
    by (intros i; apply step_keeps_incident).
  destruct a; simpl in *.
  - apply (rooms_inv_store w); try done;
      unfold http_create_incident; by case_match.
  - apply (rooms_inv_store w); try done; unfold update_incident_status;
      destruct (update_status _ _ _ _) as [[inc|?] st]; try done;
      by rewrite status_str_is_resolved_never.
  - unfold incident_room_ws_open.
    destruct (sessions w !! c) as [j|] eqn:Hc; [done|].
    destruct (get_incident (store w) incident_id) as [inc|] eqn:Hget; [|done].
    apply send_or_end_rooms_inv; [simpl; by rewrite lookup_insert_eq|].
    destruct Hinv as [H1 H2]. split; simpl.
    + intros j c'. rewrite room_connect_elem. intros [Hin|[-> ->]].
      * rewrite lookup_insert_ne; [by apply H1|].
        intros <-. specialize (H1 _ _ Hin). congruence.
      * by rewrite lookup_insert_eq.
    + intros c' j. rewrite lookup_insert. case_decide.
      * intros [= <-]. by rewrite Hget.
      * apply H2.
  - unfold incident_room_ws_receive in *.
    destruct (sessions w !! c) as [i|] eqn:Hc; [|done].
    case_match; [|by apply end_session_rooms_inv].
    destruct (get_incident (store w) i) as [inc|] eqn:Hget;
      [|by apply send_or_end_rooms_inv].
    rewrite status_str_is_resolved_never in *.
    unfold get_incident in Hget. rewrite (add_event_known _ _ _ _ Hget) in *.
    match goal with
    | |- rooms_inv (set_queue (ws_broadcast ?x ?i' ?m) ?q) =>
        apply (rooms_inv_store (ws_broadcast x i' m)); [done | done | done |];
        apply ws_broadcast_rooms_inv;
        apply (rooms_inv_store w); [done | done | | done]
    end.
    intros j Hj. specialize (Hkeep j Hj). simpl in Hkeep.
    by rewrite store_ws_broadcast in Hkeep.
  - unfold incident_room_ws_closed.
    destruct (sessions w !! c) as [i|] eqn:Hc; [|done].
    by apply end_session_rooms_inv.
  - done.
  - destruct (worker_step_fields k f w) as [Hs Hr].
    destruct Hinv as [H1 H2]. split.
    + intros i c Hc. rewrite Hs. by apply H1, Hr.
    + intros c i. rewrite Hs. intros H. by apply Hkeep, (H2 c).
Qed.

Lemma run_rooms_inv schedule w : rooms_inv w → rooms_inv (run schedule w).
Proof.
  revert w. induction schedule as [|a schedule IH]; intros w H; simpl.
  - done.
  - apply IH. by apply step_rooms_inv.
Qed.

Lemma initial_rooms_inv : rooms_inv initial_world.
Proof.
  split.
  - intros i c. unfold room. simpl. rewrite lookup_empty. simpl.
    intros H. by apply not_elem_of_empty in H.
  - intros c i. simpl. by rewrite lookup_empty.
Qed.

(** X7. In every state the program reaches, a connection registered in a
    room is registered in no other room, and the room belongs to an incident
    that is in the store: rooms are only ever opened for known incidents. *)
Theorem rooms_belong_to_incidents schedule i c :
  c ∈ room (ws_manager (run schedule initial_world)) i →
  is_Some (get_incident (store (run schedule initial_world)) i)
  ∧ ∀ j, c ∈ room (ws_manager (run schedule initial_world)) j → j = i.
Proof.
  intros Hc.
  destruct (run_rooms_inv schedule initial_world initial_rooms_inv)
    as [H1 H2].
  split.
  - by apply (H2 c), H1.
  - intros j Hj. apply H1 in Hc, Hj. congruence.
Qed.

Lemma rooms_belong_to_incidents_witness :
  is_Some (get_incident (store (run update_posted initial_world)) 1).
Proof.
  refine (proj1 (rooms_belong_to_incidents update_posted 1 7%nat _)).
  vm_compute. reflexivity.
Defined.

End RoomMembers.

(** ** What is sent is what is stored *)

Section Deliveries.
Implicit Types (w : World) (st : IncidentStore).

Lemma sends_nothing w w' :
  delivered (net w') = delivered (net w) → sends_only_stored w w'.
Proof.
  intros Hn. exists []. rewrite Hn, app_nil_r. split; [done|].
  intros c mode e H. by apply elem_of_nil in H.
Qed.

Lemma sends_only_stored_wrap w w0 w1 w' :
  delivered (net w0) = delivered (net w) →
  delivered (net w') = delivered (net w1) → store w' = store w1 →
  sends_only_stored w0 w1 → sends_only_stored w w'.
Proof.
  intros H0 Hn Hst (extra & Hd & Hex). exists extra.
  rewrite Hn, Hst, <- H0. done.
Qed.

Lemma ws_broadcast_delivered w i m :
  delivered (net (ws_broadcast w i m))
  = delivered (net w) ++ sent_by_broadcast (ws_manager w) (net w) i m.
Proof. unfold ws_broadcast. by rewrite broadcast_spec. Qed.

Lemma append_and_broadcast w inc ev :
  get_incident (store w) (TimelineEvent.incident_id ev) = Some inc →
  sends_only_stored w
    (ws_broadcast
       (set_store w
          (snd (add_event (store w) (TimelineEvent.incident_id ev) ev)))
       (TimelineEvent.incident_id ev) (MsgTimelineEvent ModeJson ev)).
Proof.
  intros Hget. eexists. split.
  - rewrite ws_broadcast_delivered. simpl. reflexivity.
  - intros c mode e H.
    apply elem_of_sent_by_broadcast in H as [[= -> ->] _].
    rewrite store_ws_broadcast. simpl.
    rewrite (timeline_of_add_event _ _ _ _ Hget).
    apply elem_of_app. right. apply list_elem_of_here.
Qed.

Lemma send_or_end_sends c i m w :
  (∀ mode e, m ≠ MsgTimelineEvent mode e) →
  sends_only_stored w (send_or_end c i m w).
Proof.
  intros Hm. unfold send_or_end. rewrite send_json_accepts.
  destruct (accepts (net w) m c); [|by apply sends_nothing].
  exists [(c, m)]. split; [done|].
  intros c' mode e H. apply list_elem_of_singleton in H as [= _ Heq].
  symmetry in Heq. by destruct (Hm mode e).
Qed.

Lemma worker_stage_a_sends f job w :
  sends_only_stored w (fst (worker_stage_a f job w)).
Proof.
  destruct (get_incident (store w) (HumanUpdateJob.incident_id job))
    as [inc|] eqn:Hget.
  - rewrite (worker_stage_a_known _ _ _ _ Hget). simpl.
    by apply (append_and_broadcast w inc (ai_tag_event f job)).
  - rewrite (proj1 (worker_stage_a_unknown f job w Hget)).
    by apply sends_nothing.
Qed.

Lemma worker_stage_b_sends f job w :
  sends_only_stored w (worker_stage_b f job w).
Proof.
  destruct (get_incident (store w) (HumanUpdateJob.incident_id job))
    as [inc|] eqn:Hget.
  - rewrite (worker_stage_b_known _ _ _ _ Hget).
    by apply (append_and_broadcast w inc (ai_summary_event f job)).
  - unfold worker_stage_b. unfold get_incident in Hget.
    rewrite (add_event_unknown _ _ _ Hget). by apply sends_nothing.
Qed.

Lemma run_locked_sends k f job w0 w :
  delivered (net w0) = delivered (net w) →
  sends_only_stored w (run_locked k f job w0).
Proof.
  intros Hn. unfold run_locked.
  pose proof (worker_stage_a_sends f job w0) as Ha.
  destruct (worker_stage_a f job w0) as [w1 []]; simpl in Ha;
    by apply (sends_only_stored_wrap w w0 w1).
Qed.

Lemma step_sends_only_stored a w : sends_only_stored w (step a w).
Proof.
  destruct a; simpl.
  - unfold http_create_incident. case_match; by apply sends_nothing.
  - unfold update_incident_status.
    destruct (update_status _ _ _ _) as [[inc|?] st];
      [|by apply sends_nothing].
    rewrite status_str_is_resolved_never. by apply sends_nothing.
  - unfold incident_room_ws_open.
    destruct (sessions w !! c); [by apply sends_nothing|].
    destruct (get_incident (store w) incident_id) as [inc|];
      [|by apply sends_nothing].
    match goal with
    | |- sends_only_stored _ (send_or_end ?c' ?i ?m ?x) =>
        apply (sends_only_stored_wrap w x (send_or_end c' i m x)
                 (send_or_end c' i m x)); [done | done | done |];
        by apply send_or_end_sends
    end.
  - unfold incident_room_ws_receive.
    destruct (sessions w !! c) as [i|]; [|by apply sends_nothing].
    case_match; [|by apply sends_nothing].
    destruct (get_incident (store w) i) as [inc|] eqn:Hget;
      [|by apply send_or_end_sends].
    rewrite status_str_is_resolved_never.
    unfold get_incident in Hget. rewrite (add_event_known _ _ _ _ Hget).
    pose proof (append_and_broadcast w inc
                  (new_event f i human_update [("message", VStr text)])
                  Hget) as Hs.
    simpl in Hs. rewrite (add_event_known _ _ _ _ Hget) in Hs.
    match goal with
    | |- sends_only_stored _ (set_queue ?x ?q) =>
        by apply (sends_only_stored_wrap w w x (set_queue x q))
    end.
  - unfold incident_room_ws_closed, end_session.
    case_match; by apply sends_nothing.
  - by apply sends_nothing.
  - unfold worker_step.
    destruct (workers w !! k) as [[|job|job]|]; [| | |by apply sends_nothing].
    + repeat case_match;
        first [ by apply sends_nothing | by apply run_locked_sends ].
    + repeat case_match;
        first [ by apply sends_nothing | by apply run_locked_sends ].
    + match goal with
      | |- sends_only_stored _ (set_worker (set_locks ?x ?l) ?k' ?s) =>
          apply (sends_only_stored_wrap w w x
                   (set_worker (set_locks x l) k' s)); [done | done | done |]
      end.
      apply worker_stage_b_sends.
Qed.

Lemma timeline_elem_evolves st st' e id :
  store_wf st → store_evolves st st' →
  e ∈ timeline_of st id → e ∈ timeline_of st' id.
Proof.
  intros Hwf Hev. unfold timeline_of, get_incident.
  destruct (_incidents st !! id) as [inc|] eqn:Hid.
  - destruct (store_evolves_incident _ _ _ _ Hwf Hev Hid)
      as (inc' & -> & [rest ->] & _).
    intros He. apply elem_of_app. by left.
  - intros He. by apply elem_of_nil in He.
Qed.

Lemma run_delivered_stored schedule w :
  store_wf (store w) →
  (∀ c mode e, (c, MsgTimelineEvent mode e) ∈ delivered (net w) →
     e ∈ timeline_of (store w) (TimelineEvent.incident_id e)) →
  ∀ c mode e,
    (c, MsgTimelineEvent mode e) ∈ delivered (net (run schedule w)) →
    e ∈ timeline_of (store (run schedule w)) (TimelineEvent.incident_id e).
Proof.
  revert w. induction schedule as [|a schedule IH]; intros w Hwf Hinv; simpl.
  - done.
  - apply IH.
    + eapply store_evolves_wf; [done | apply step_store_evolves].
    + intros c mode e.
      destruct (step_sends_only_stored a w) as (extra & -> & Hextra).
      intros H. apply elem_of_app in H as [H|H].
      * eapply timeline_elem_evolves;
          [done | apply step_store_evolves | by eapply Hinv].
      * by eapply Hextra.
Qed.

(** X8. In every state the program reaches, every timeline event that was
    delivered to a connection is in the store, in the timeline of the
    incident it names: each block appends before it broadcasts, and
    timelines never lose events. *)
Theorem delivered_events_are_stored schedule c mode e :
  (c, MsgTimelineEvent mode e)
  ∈ delivered (net (run schedule initial_world)) →
  e ∈ timeline_of (store (run schedule initial_world))
        (TimelineEvent.incident_id e).
Proof.
  apply run_delivered_stored; [apply new_store_wf|].
  intros c' mode' e' H. by apply elem_of_nil in H.
Qed.

Lemma delivered_events_are_stored_witness :
  new_event (fresh 1) 1 human_update [("message", VStr "db down")]
  ∈ timeline_of (store (run update_posted initial_world)) 1.
Proof.
  refine (delivered_events_are_stored update_posted 7%nat ModeJson
            (new_event (fresh 1) 1 human_update [("message", VStr "db down")])
            _).
  vm_compute. apply list_elem_of_further, list_elem_of_here.
Defined.

End Deliveries.

(** ** The request handlers *)

Section Handlers.
Implicit Types (w : World) (inc : Incident.t).

(** X9. [PATCH /incidents/{id}/status] answers 404 and changes nothing when
    the incident is unknown; otherwise it answers with the incident as
    updated, and all it does, whatever status is requested, is the store's
    [update_status]: one [status_change] event, no [system] event, no
    message to any connection, rooms and queue untouched. *)
Theorem update_incident_status_effect f_change f_system id s w :
  (get_incident (store w) id = None →
   update_incident_status f_change f_system id s w
   = (Resp404 "Incident not found", w))
  ∧ (∀ inc, get_incident (store w) id = Some inc →
     update_incident_status f_change f_system id s w
     = (Resp200
          (Incident.append (Incident.set_status inc s)
             (status_change_event f_change id (Incident.status inc) s)),
        set_store w (snd (update_status (store w) f_change id s)))).
Proof.
  unfold update_incident_status, get_incident. split.
  - intros H. by rewrite (update_status_unknown _ _ _ _ H).
  - intros inc H. rewrite (update_status_known _ _ _ _ _ H).
    by rewrite status_str_is_resolved_never.
Qed.

(** X10. [POST /incidents] rejects a title shorter than 3 or longer than
    120 characters without touching anything.  In a state the program can
    reach, an accepted request creates the incident under the next
    identifier, advances [_next_id] by one and leaves every incident
    already stored exactly as it was. *)
Theorem http_create_incident_effect schedule created f title sev :
  let w := run schedule initial_world in
  let r := http_create_incident created f title sev w in
  ((len title < 3 ∨ 120 < len title)%nat → r = (Resp422, w))
  ∧ ((3 ≤ len title ≤ 120)%nat →
     ∃ inc, fst r = Resp200 inc
            ∧ Incident.id inc = _next_id (store w)
            ∧ Incident.title inc = title
            ∧ get_incident (store (snd r)) (Incident.id inc) = Some inc
            ∧ _next_id (store (snd r)) = _next_id (store w) + 1
            ∧ ∀ k inc0, get_incident (store w) k = Some inc0 →
                        get_incident (store (snd r)) k = Some inc0).
Proof.
  cbv zeta. set (w := run schedule initial_world).
  unfold http_create_incident. split.
  - intros H.
    destruct ((3 <=? len title)%nat && (len title <=? 120)%nat) eqn:Hb;
      [|done].
    apply andb_true_iff in Hb as [H1 H2].
    apply Nat.leb_le in H1, H2. lia.
  - intros [H1 H2].
    apply Nat.leb_le in H1, H2. rewrite H1, H2. simpl.
    eexists. split; [reflexivity|]. simpl. repeat split.
    + unfold get_incident. simpl. by rewrite lookup_insert_eq.
    + intros k inc0 Hk. unfold get_incident in *. simpl.
      rewrite lookup_insert_ne; [done|].
      destruct (run_store_wf schedule) as [_ Hwf].
      destruct (Hwf k inc0 Hk) as (_ & ? & _). fold w in H. lia.
Qed.

(** The job the handler submits for a message. *)
Lemma ws_receive_valid c f text w i inc :
  sessions w !! c = Some i →
  get_incident (store w) i = Some inc →
  (1 ≤ len text ≤ 2000)%nat →
  incident_room_ws_receive c f text w
  = set_queue
      (ws_broadcast
         (set_store w
            (snd (add_event (store w) i
                    (new_event f i human_update [("message", VStr text)]))))
         i
         (MsgTimelineEvent ModeJson
            (new_event f i human_update [("message", VStr text)])))
      (processor_queue w
       ++ [{| HumanUpdateJob.incident_id := i;
              HumanUpdateJob.human_event_id := uuid f;
              HumanUpdateJob.message := text |}]).
Proof.
  intros Hc Hget [H1 H2]. unfold incident_room_ws_receive.
  apply Nat.leb_le in H1, H2.
  rewrite Hc, H1, H2, Hget, status_str_is_resolved_never.
  unfold get_incident in Hget. rewrite (add_event_known _ _ _ _ Hget).
  simpl. by rewrite processor_queue_ws_broadcast.
Qed.

(** X11. A message of 1 to 2000 characters received on a connection whose
    handler runs for a stored incident, whatever the incident's status:
    one [human_update] event with the text is appended to the timeline,
    it is sent to the members of the room that accept it, and one job
    carrying the event's identifier and the text goes to the back of the
    queue.  A message of any other length ends the handler: the
    connection leaves the room, nothing is appended and nothing queued. *)
Theorem ws_receive_effect c f text w i inc :
  sessions w !! c = Some i →
  get_incident (store w) i = Some inc →
  let w' := incident_room_ws_receive c f text w in
  let event := new_event f i human_update [("message", VStr text)] in
  ((1 ≤ len text ≤ 2000)%nat →
   timeline_of (store w') i = Incident.timeline inc ++ [event]
   ∧ processor_queue w'
     = processor_queue w
       ++ [{| HumanUpdateJob.incident_id := i;
              HumanUpdateJob.human_event_id := TimelineEvent.event_id event;
              HumanUpdateJob.message := text |}]
   ∧ delivered (net w')
     = delivered (net w)
       ++ sent_by_broadcast (ws_manager w) (net w) i
            (MsgTimelineEvent ModeJson event))
  ∧ ((len text < 1 ∨ 2000 < len text)%nat →
     store w' = store w
     ∧ processor_queue w' = processor_queue w
     ∧ delivered (net w') = delivered (net w)
     ∧ (c ∉ room (ws_manager w') i)
     ∧ sessions w' !! c = None).
Proof.
  intros Hc Hget. cbv zeta. split.
  - intros Hlen. rewrite (ws_receive_valid _ _ _ _ _ _ Hc Hget Hlen). simpl.
    rewrite store_ws_broadcast, ws_broadcast_delivered. simpl.
    by rewrite (timeline_of_add_event _ _ _ _ Hget).
  - intros Hlen. unfold incident_room_ws_receive. rewrite Hc.
    destruct ((1 <=? len text)%nat && (len text <=? 2000)%nat) eqn:Hb.
    { apply andb_true_iff in Hb as [H1 H2]. apply Nat.leb_le in H1, H2. lia. }
    simpl. repeat split.
    + rewrite room_disconnect_elem. tauto.
    + by rewrite lookup_delete_eq.
Qed.

Lemma ws_receive_effect_witness :
  processor_queue (run update_posted initial_world)
  = [{| HumanUpdateJob.incident_id := 1;
        HumanUpdateJob.human_event_id := "1";
        HumanUpdateJob.message := "db down" |}].
Proof.
  pose proof (ws_receive_effect 7%nat (fresh 1) "db down"
                (run [CreateIncident 0 (fresh 0) "Checkout down" P1;
                      WsOpen 7%nat 1] initial_world)
                1 _ eq_refl eq_refl) as [H _].
  assert ((1 ≤ len "db down" ≤ 2000)%nat) as Hlen by (vm_compute; lia).
  destruct (H Hlen) as (_ & Hq & _). exact Hq.
Defined.

(** X12. Opening [/ws/incidents/{id}]: for an unknown incident nothing is
    registered.  For a stored incident, a connection that can be written
    to is put in the incident's room and receives the incident as it
    stands, whole timeline included, as its first message; a connection
    that cannot be written to is not left in the room. *)
Theorem ws_open_effect c i w :
  sessions w !! c = None →
  let w' := incident_room_ws_open c i w in
  (get_incident (store w) i = None → w' = w)
  ∧ (∀ inc, get_incident (store w) i = Some inc →
       (c ∉ closed (net w) →
        c ∈ room (ws_manager w') i
        ∧ sessions w' !! c = Some i
        ∧ delivered (net w') = delivered (net w) ++ [(c, MsgInitialState inc)])
       ∧ (c ∈ closed (net w) →
          (c ∉ room (ws_manager w') i)
          ∧ sessions w' !! c = None
          ∧ delivered (net w') = delivered (net w))).
Proof.
  intros Hc. cbv zeta. unfold incident_room_ws_open. rewrite Hc. split.
  - by intros ->.
  - intros inc ->. unfold send_or_end. rewrite send_json_accepts.
    unfold accepts. simpl. split; intros Hclosed.
    + rewrite bool_decide_eq_true_2 by done. simpl.
      rewrite room_connect_elem, lookup_insert_eq. auto.
    + rewrite bool_decide_eq_false_2 by auto. simpl.
      rewrite room_disconnect_elem, lookup_delete_eq. split; [tauto | done].
Qed.

Lemma ws_open_effect_witness :
  7%nat ∈ room
            (ws_manager
               (run [CreateIncident 0 (fresh 0) "Checkout down" P1;
                     WsOpen 7%nat 1] initial_world)) 1.
Proof.
  pose proof (ws_open_effect 7%nat 1
                (run [CreateIncident 0 (fresh 0) "Checkout down" P1]
                   initial_world) eq_refl) as [_ H].
  destruct (H _ eq_refl) as [Hopen _].
  refine (proj1 (Hopen _)).
  vm_compute. intros Hin. discriminate Hin.
Defined.

End Handlers.

(** ** Listing, room bookkeeping and the text helpers *)

Section Helpers.
Implicit Types (st : IncidentStore) (rooms : gmap Z (gset Conn)) (c : Conn)
  (text message : string).

Lemma elem_of_list_incidents st s :
  s ∈ list_incidents st
  ↔ ∃ k inc, get_incident st k = Some inc ∧ s = summary_of inc.
Proof.
  unfold list_incidents, get_incident. rewrite list_elem_of_fmap. split.
  - intros (inc & -> & Hin). apply list_elem_of_fmap in Hin as ([k inc'] & -> & Hin).
    apply elem_of_map_to_list in Hin. by exists k, inc'.
  - intros (k & inc & Hk & ->). exists inc. split; [done|].
    apply list_elem_of_fmap. exists (k, inc). split; [done|].
    by apply elem_of_map_to_list.
Qed.

(** X13. [list_incidents] in a state the program can reach: the summaries
    are exactly those of the stored incidents, one per incident, and no
    two of them carry the same identifier. *)
Theorem list_incidents_spec schedule :
  let st := store (run schedule initial_world) in
  (∀ s, s ∈ list_incidents st
        ↔ ∃ k inc, get_incident st k = Some inc ∧ s = summary_of inc)
  ∧ length (list_incidents st) = size (_incidents st)
  ∧ NoDup (IncidentSummary.id <$> list_incidents st).
Proof.
  cbv zeta. set (st := store (run schedule initial_world)).
  split; [intros; apply elem_of_list_incidents|]. split.
  - unfold list_incidents. by rewrite !length_fmap, length_map_to_list.
  - assert (IncidentSummary.id <$> list_incidents st
            = fst <$> map_to_list (_incidents st)) as ->.
    { unfold list_incidents. rewrite <- !list_fmap_compose.
      apply list_fmap_ext. intros n [k inc] Hin. simpl.
      apply list_elem_of_lookup_2, elem_of_map_to_list in Hin.
      destruct (run_store_wf schedule) as [_ Hwf].
      by destruct (Hwf k inc Hin) as (-> & _). }
    apply NoDup_fst_map_to_list.
Qed.

Lemma union_difference_singleton (s : gset Conn) c :
  c ∉ s → (s ∪ {[c]}) ∖ {[c]} = s.
Proof.
  intros Hc. apply set_eq. intros x.
  rewrite elem_of_difference, elem_of_union, elem_of_singleton. split.
  - intros [[Hx|Hx] Hne]; [done | by destruct Hne].
  - intros Hx. split; [by left | by intros ->].
Qed.

Lemma difference_singleton_notin (s : gset Conn) c : c ∉ s → s ∖ {[c]} = s.
Proof.
  intros Hc. apply set_eq. intros x.
  rewrite elem_of_difference, elem_of_singleton. split.
  - by intros [Hx _].
  - intros Hx. split; [done | by intros ->].
Qed.

Lemma union_singleton_twice (s : gset Conn) c :
  s ∪ {[c]} ∪ {[c]} = s ∪ {[c]}.
Proof.
  apply set_eq. intros x. rewrite !elem_of_union. tauto.
Qed.

(** X14. On a room map without empty rooms, registering a connection that
    is not yet in the room and removing it again gives back the map as it
    was (the room created for it is deleted again); registering twice is
    registering once; and removing a connection that is not in the room
    changes nothing. *)
Theorem connect_disconnect_round_trip rooms i c :
  no_empty_room rooms →
  c ∉ room rooms i →
  disconnect (connect rooms i c) i c = rooms
  ∧ connect (connect rooms i c) i c = connect rooms i c
  ∧ disconnect rooms i c = rooms.
Proof.
  intros Hinv Hc. unfold room in Hc. repeat split.
  - rewrite connect_insert. unfold disconnect, room.
    rewrite lookup_insert_eq.
    destruct (rooms !! i) as [s|] eqn:Hi; simpl in *.
    + rewrite union_difference_singleton by done.
      rewrite decide_False by by eapply Hinv.
      rewrite insert_insert_eq. by apply insert_id.
    + rewrite union_difference_singleton by done.
      rewrite decide_True by done. rewrite delete_insert_eq.
      by apply delete_id.
  - rewrite !connect_insert. unfold room. rewrite lookup_insert_eq. simpl.
    rewrite insert_insert_eq. f_equal. apply union_singleton_twice.
  - unfold disconnect. destruct (rooms !! i) as [s|] eqn:Hi; [|done].
    simpl in Hc. rewrite difference_singleton_notin by done.
    rewrite decide_False by by eapply Hinv. by apply insert_id.
Qed.

Lemma connect_disconnect_round_trip_witness :
  disconnect (connect {[ 1 := {[ 4%nat ]} ]} 1 5%nat) 1 5%nat
  = ({[ 1 := {[ 4%nat ]} ]} : gmap Z (gset Conn)).
Proof.
  refine (proj1 (connect_disconnect_round_trip
                   {[ 1 := {[ 4%nat ]} ]} 1 5%nat _ _)).
  - intros j s Hj. apply lookup_singleton_Some in Hj as [_ <-].
    intros He. apply (not_elem_of_empty (C := gset Conn) 4%nat).
    rewrite <- He. by apply elem_of_singleton.
  - unfold room. rewrite lookup_singleton_eq. simpl.
    intros Hin. apply elem_of_singleton in Hin. discriminate Hin.
Defined.

Lemma contains_weaken k k' suffix hay :
  k' = k +:+ suffix → contains k' hay = true → contains k hay = true.
Proof.
  intros -> H. apply contains_spec in H as (before & after & ->).
  apply contains_spec. exists before, (suffix +:+ after).
  f_equal. clear. induction k as [|ch k IH]; [done|].
  rewrite !append_String. by rewrite IH.
Qed.

Lemma elem_of_extract_keywords text k :
  k ∈ extract_keywords text
  ↔ k ∈ KEYWORDS ∧ contains k (lower text) = true.
Proof.
  unfold extract_keywords.
  by rewrite list_elem_of_In, filter_In, <- list_elem_of_In.
Qed.

(** X15. [extract_keywords] returns, in the order of [KEYWORDS] and
    without repetition, the keywords that occur in the lower-cased text.
    It finds [error] whenever it finds [errors]; and it agrees with the
    worker's Stage A where their vocabularies meet: Stage A tags
    [timeout] or [latency] exactly when that keyword is found, and tags
    [database] exactly when [db] or [database] is found. *)
Theorem extract_keywords_spec text :
  (∀ k, k ∈ extract_keywords text
        ↔ k ∈ KEYWORDS ∧ contains k (lower text) = true)
  ∧ extract_keywords text `sublist_of` KEYWORDS
  ∧ NoDup (extract_keywords text)
  ∧ ("errors" ∈ extract_keywords text → "error" ∈ extract_keywords text)
  ∧ ("timeout" ∈ stage_a_tags text ↔ "timeout" ∈ extract_keywords text)
  ∧ ("latency" ∈ stage_a_tags text ↔ "latency" ∈ extract_keywords text)
  ∧ ("database" ∈ stage_a_tags text
     ↔ "db" ∈ extract_keywords text ∨ "database" ∈ extract_keywords text).
Proof.
  assert (NoDup KEYWORDS) as Hnd.
  { apply (bool_decide_unpack (NoDup KEYWORDS)). by vm_compute. }
  assert (extract_keywords text `sublist_of` KEYWORDS) as Hsub.
  { unfold extract_keywords. generalize KEYWORDS. intros l.
    induction l as [|x l IH]; simpl; [done|].
    destruct (contains x (lower text)); by constructor. }
  assert (∀ k, k ∈ KEYWORDS →
            (k ∈ extract_keywords text ↔ contains k (lower text) = true))
    as Hkw.
  { intros k Hk. rewrite elem_of_extract_keywords. tauto. }
  assert (∀ k : string, k ∈ KEYWORDS ↔ bool_decide (k ∈ KEYWORDS) = true)
    as Hdec by (intros k; by rewrite bool_decide_eq_true).
  split; [apply elem_of_extract_keywords|]. split; [done|].
  split; [by apply (sublist_NoDup _ KEYWORDS)|]. split.
  { rewrite !Hkw by (apply Hdec; by vm_compute).
    by apply (contains_weaken "error" "errors" "s"). }
  rewrite !Hkw by (apply Hdec; by vm_compute).
  assert (∀ (k : string) (l : list string),
            k ∈ l ↔ existsb (String.eqb k) l = true) as Hin.
  { intros k l. rewrite list_elem_of_In, existsb_exists. split.
    - intros H. exists k. by rewrite String.eqb_refl.
    - intros (x & Hx & Heq). by apply String.eqb_eq in Heq as ->. }
  unfold stage_a_tags. cbv zeta.
  destruct (contains "db" (lower text)), (contains "database" (lower text)),
    (contains "timeout" (lower text)), (contains "payment" (lower text)),
    (contains "checkout" (lower text)), (contains "latency" (lower text));
    simpl; rewrite !Hin; vm_compute; intuition congruence.
Qed.

Lemma len_append (s t : string) : len (s +:+ t) = (len s + len t)%nat.
Proof.
  unfold len. induction s as [|ch s IH]; [done|].
  rewrite append_String. simpl. by rewrite IH.
Qed.

Lemma len_rstrip (s : string) : (len (rstrip s) ≤ len s)%nat.
Proof.
  unfold len. induction s as [|ch s IH]; simpl; [done|].
  destruct (rstrip s) as [|ch' s'].
  - destruct (is_space ch); simpl; lia.
  - simpl in *. lia.
Qed.

(** X16. [fallback_summary] without service and keywords is the label
    ["Incident update: "] followed by the stripped message when that has at
    most 140 characters, and otherwise by at most 140 of its characters and
    three dots; the summary never exceeds 160 characters. *)
Theorem fallback_summary_bounded message :
  (len (fallback_summary message None []) ≤ 160)%nat
  ∧ ((len (strip message) ≤ 140)%nat →
     fallback_summary message None [] = "Incident update: " +:+ strip message)
  ∧ ((140 < len (strip message))%nat →
     fallback_summary message None []
     = "Incident update: "
       +:+ rstrip (slice_to 140 (strip message)) +:+ "...").
Proof.
  unfold fallback_summary.
  destruct (140 <? len (strip message))%nat eqn:Hlong.
  - apply Nat.ltb_lt in Hlong. split; [|split; [lia | done]].
    rewrite !len_append.
    pose proof (len_rstrip (slice_to 140 (strip message))) as H1.
    pose proof (slice_to_len 140 (strip message)) as H2.
    change (len "Incident update: ") with 17%nat.
    change (len "...") with 3%nat. lia.
  - apply Nat.ltb_ge in Hlong. split; [|split; [done | lia]].
    rewrite len_append. change (len "Incident update: ") with 17%nat. lia.
Qed.

Lemma fallback_summary_bounded_witness :
  fallback_summary "  db is down  " None [] = "Incident update: db is down".
Proof.
  refine (proj1 (proj2 (fallback_summary_bounded "  db is down  ")) _).
  vm_compute. lia.
Defined.

End Helpers.

(** ** One job through the worker loop *)

Section WorkerRun.
Implicit Types (w : World) (job : HumanUpdateJob.t).

(** X17. A worker waiting at the queue, with a job at the head of the queue
    for a stored incident whose lock is free and has no waiters, takes the
    job off the queue and, in its two blocks, appends the [ai_tag] and the
    [ai_summary] event to the incident's timeline; afterwards the worker is
    back at the queue, the rest of the queue is untouched and the lock is
    free again. *)
Theorem worker_runs_job_to_completion k fa fb w job rest inc :
  workers w !! k = Some AtQueueGet →
  processor_queue w = job :: rest →
  locked (get_lock (lock_manager w) (HumanUpdateJob.incident_id job)) = false →
  waiters (get_lock (lock_manager w) (HumanUpdateJob.incident_id job)) = [] →
  get_incident (store w) (HumanUpdateJob.incident_id job) = Some inc →
  let w1 := step (Worker k fa) w in
  let w2 := step (Worker k fb) w1 in
  workers w1 !! k = Some (AtSleep job)
  ∧ lock_held w1 (HumanUpdateJob.incident_id job) = true
  ∧ timeline_of (store w2) (HumanUpdateJob.incident_id job)
    = Incident.timeline inc ++ [ai_tag_event fa job; ai_summary_event fb job]
  ∧ processor_queue w2 = rest
  ∧ workers w2 !! k = Some AtQueueGet
  ∧ lock_held w2 (HumanUpdateJob.incident_id job) = false.
Proof.
  intros Hk Hq Hlocked Hwaiters Hget. cbv zeta.
  assert (step (Worker k fa) w
          = set_worker
              (ws_broadcast
                 (set_store
                    (set_locks (set_queue w rest)
                       (<[HumanUpdateJob.incident_id job :=
                            {| locked := true; waiters := [] |}]>
                          (lock_manager w)))
                    (snd (add_event (store w) (HumanUpdateJob.incident_id job)
                            (ai_tag_event fa job))))
                 (HumanUpdateJob.incident_id job)
                 (MsgTimelineEvent ModeJson (ai_tag_event fa job)))
              k (AtSleep job)) as Hw1.
  { simpl. unfold worker_step. rewrite Hk, Hq. cbv zeta.
    change (lock_manager (set_queue w rest)) with (lock_manager w).
    rewrite Hlocked, Hwaiters.
    by rewrite (run_locked_known _ _ _ _ inc). }
  set (w1 := step (Worker k fa) w) in *.
  assert (workers w1 !! k = Some (AtSleep job)) as Hk1.
  { rewrite Hw1. simpl. by rewrite lookup_insert_eq. }
  assert (store w1
          = snd (add_event (store w) (HumanUpdateJob.incident_id job)
                   (ai_tag_event fa job))) as Hst1.
  { rewrite Hw1. simpl. by rewrite store_ws_broadcast. }
  assert (get_incident (store w1) (HumanUpdateJob.incident_id job)
          = Some (Incident.append inc (ai_tag_event fa job))) as Hget1.
  { rewrite Hst1. unfold get_incident in *.
    rewrite (add_event_known _ _ _ _ Hget). simpl.
    by rewrite lookup_insert_eq. }
  assert (lock_held w1 (HumanUpdateJob.incident_id job) = true) as Hheld1.
  { rewrite Hw1. unfold lock_held, get_lock. simpl.
    rewrite lock_manager_ws_broadcast. simpl.
    by rewrite lookup_insert_eq. }
  assert (processor_queue w1 = rest) as Hq1.
  { rewrite Hw1. simpl. by rewrite processor_queue_ws_broadcast. }
  split; [done|]. split; [done|].
  simpl. unfold worker_step. rewrite Hk1. cbv zeta.
  rewrite (worker_stage_b_known _ _ _ _ Hget1).
  repeat split.
  - simpl. rewrite store_ws_broadcast. simpl.
    rewrite (timeline_of_add_event _ _ _ _ Hget1). simpl.
    by rewrite <- app_assoc.
  - simpl. by rewrite processor_queue_ws_broadcast.
  - simpl. by rewrite lookup_insert_eq.
  - rewrite lock_held_set_worker, lock_held_release.
    by rewrite decide_True.
Qed.

Lemma worker_runs_job_to_completion_witness :
  processor_queue
    (run (update_posted ++ [Worker 1%nat (fresh 2); Worker 1%nat (fresh 3)])
       initial_world)
  = [].
Proof.
  pose proof (worker_runs_job_to_completion 1%nat (fresh 2) (fresh 3)
                (run update_posted initial_world) _ [] _
                eq_refl eq_refl eq_refl eq_refl eq_refl) as H.
  exact (proj1 (proj2 (proj2 (proj2 H)))).
Defined.

End WorkerRun.
